(** * Verification of the HTTP notifier library (package [notifier])

    A shallow embedding of [pkg/notifier]: the error type [NotifyErr]
    (errors.go) and the [Client] with [create], [Notify], [worker], [OnError],
    [Stop] (notifier.go).

    Modelling conventions.
    - Go [int] and [uint64] values are integers in [Z]; the conversion
      [uint64(x)] is written out as reduction modulo [2^64].
    - A Go [error] interface value is an [option error]: [None] is the nil
      interface.  An error is a [*NotifyErr] or a pointer to an error of
      another package ([*errors.errorString] as made by [errors.New],
      [*url.Error], ...), known by its address, its text and what its
      [Unwrap] method returns; the errors of other packages that have an
      [Is] method of their own are outside the model.  Pointers to
      [NotifyErr] are never nil in the package: every one of them comes
      from a [&NotifyErr{...}] literal.
    - [int] has 64 bits: [make(chan struct{}, n)] panics when the [uint64]
      value [n] is [2^63] or more, and [create] then returns no client.
    - The calls into [net/http] and [golang.org/x/time/rate] made by a worker
      are answered by an [Oracle]: the model proves properties for every
      answer the libraries may give.
    - Goroutines are interleaved at the granularity of one iteration of the
      loops of [Notify], and, for a worker, of its body, of its deferred
      receive from the gate and of its deferred [Done], each a step of its
      own; what the other goroutines do between two iterations of a
      [Notify] call is given by a schedule.  Everything observable is
      appended to a trace. *)

From Stdlib Require Import ZArith List String Bool Lia.
From Stdlib Require Strings.Byte.
Import ListNotations.
Local Open Scope string_scope.
Local Open Scope list_scope.
Local Open Scope Z_scope.

(** ** errors.go *)

Definition TypeContextCanceled : Z := 0.
Definition TypeWorkersLimitExceeded : Z := 1.
Definition TypeSendError : Z := 2.

Definition msgSendErrorRequest : string :=
  "Fail send message, unable to create request".
Definition msgSendErrorRateLimiter : string :=
  "Fail send message, rate limiter error".
Definition msgSendErrorClient : string :=
  "Fail send message, unable to do request".

(** The struct [NotifyErr], over the type of the errors it may wrap. *)
Record NotifyErr_ (E : Type) : Type := mkNotifyErr {
  Type_ : Z;
  Message : string;
  Err : option E
}.
Arguments mkNotifyErr {E} _ _ _.
Arguments Type_ {E} _.
Arguments Message {E} _.
Arguments Err {E} _.

(** Non-nil values of the interface [error]: a pointer to an error of
    another package, given by its address, by what its [Error] method returns
    and by what its [Unwrap] method returns (nil when it has none), or a
    pointer to a [NotifyErr]. *)
#[warnings="-register-all"]
Inductive error : Type :=
| otherError (addr : nat) (text : string) (cause : option error)
| ptrNotifyErr (e : NotifyErr_ error).

(** [errors.New(text)], allocated at [addr]. *)
Definition errors_New (addr : nat) (text : string) : error :=
  otherError addr text None.

Definition NotifyErr : Type := NotifyErr_ error.

(** [func (e *NotifyErr) Unwrap() error] *)
Definition Unwrap (e : NotifyErr) : option error := Err e.

(** [func (e *NotifyErr) Is(target error) bool] *)
Definition Is (e : NotifyErr) (target : option error) : bool :=
  match target with
  | Some (ptrNotifyErr t) => Type_ e =? Type_ t
  | _ => false
  end.

(** [func (e *NotifyErr) Error() string], with the verb [%v] of [fmt] printing
    a nil error as [<nil>] and any other error through its [Error] method. *)
Fixpoint error_Error (err : error) : string :=
  match err with
  | otherError _ text _ => text
  | ptrNotifyErr (mkNotifyErr _ m None) => (m ++ ": " ++ "<nil>")%string
  | ptrNotifyErr (mkNotifyErr _ m (Some cause)) =>
      (m ++ ": " ++ error_Error cause)%string
  end.

Definition Error (e : NotifyErr) : string := error_Error (ptrNotifyErr e).

(** The operator [==] of Go on two error values: two pointers to errors of
    other packages are equal when they are the same address, whatever the
    texts are.  Two [*NotifyErr] pointers are never compared by the model:
    when they are the same pointer their [Is] method answers true as well. *)
Definition same_pointer (a b : error) : bool :=
  match a, b with
  | otherError x _ _, otherError y _ _ => Nat.eqb x y
  | _, _ => false
  end.

(** [errors.Is(err, target)] of the standard library on a non-nil target:
    walk the [Unwrap] chain of [err], at each link try [==] and the link's own
    [Is] method. *)
Fixpoint errors_Is (err : error) (target : error) : bool :=
  match err with
  | otherError addr text cause =>
      same_pointer (otherError addr text cause) target
      || match cause with
         | Some inner => errors_Is inner target
         | None => false
         end
  | ptrNotifyErr (mkNotifyErr ty m cause) =>
      Is (mkNotifyErr ty m cause) (Some target)
      || match cause with
         | Some inner => errors_Is inner target
         | None => false
         end
  end.

(** The kind carried by an error value, when it is a [*NotifyErr]
    (what [errors.As(err, &nErr)] followed by [nErr.Type] reads at the head
    of the chain). *)
Definition kind_of (err : option error) : option Z :=
  match err with
  | Some (ptrNotifyErr e) => Some (Type_ e)
  | _ => None
  end.

(** ** notifier.go: parameters and construction *)

(** A message, [[]byte]. *)
Definition bytes : Type := list Init.Byte.byte.

Record ClientParams : Type := mkClientParams {
  MaxConcurrentWorkers : Z;  (* uint64 *)
  MaxRequestRate : Z;        (* time.Duration, in nanoseconds *)
  MaxRequestsPerRate : Z     (* int *)
}.

Definition Second : Z := 1000000000.

(** Values of type [*ClientParams]: the struct the package variable
    [DefaultParams] points to, or a struct owned by a caller. *)
Inductive ptrClientParams : Type :=
| DefaultParams
| callerParams (a : nat).

Definition ptrClientParams_eqb (p q : ptrClientParams) : bool :=
  match p, q with
  | DefaultParams, DefaultParams => true
  | callerParams a, callerParams b => Nat.eqb a b
  | _, _ => false
  end.

(** The memory holding the [ClientParams] structs; every pointer is valid. *)
Definition store : Type := ptrClientParams -> ClientParams.

(** [p.MaxConcurrentWorkers = v] *)
Definition assign_MaxConcurrentWorkers
    (st : store) (p : ptrClientParams) (v : Z) : store :=
  fun q =>
    if ptrClientParams_eqb q p
    then mkClientParams v (MaxRequestRate (st q)) (MaxRequestsPerRate (st q))
    else st q.

(** The struct behind [DefaultParams] as the package initialises it. *)
Definition DefaultParams_init : ClientParams :=
  mkClientParams 100 (10 * Second) 100.

Definition initial_store (callers : nat -> ClientParams) : store :=
  fun p =>
    match p with
    | DefaultParams => DefaultParams_init
    | callerParams a => callers a
    end.

(** The fields of [http.Transport] that the package reads (all [int]). *)
Record http_Transport : Type := mkTransport {
  MaxConnsPerHost : Z;
  MaxIdleConnsPerHost : Z;
  MaxIdleConns : Z
}.

(** Values of the interface [http.RoundTripper], by dynamic type. *)
Inductive RoundTripper : Type :=
| ptrTransport (t : http_Transport)
| otherRoundTripper.

(** [http.DefaultTransport] sets [MaxIdleConns: 100] and leaves the two
    per-host ceilings at zero. *)
Definition http_DefaultTransport : RoundTripper :=
  ptrTransport (mkTransport 0 0 100).

Definition uint64 (x : Z) : Z := x mod 2 ^ 64.

(** [func calculateOptimalWorkersLimit(transport http.RoundTripper) uint64].
    [Getrlimit] is [Some cur] when [syscall.Getrlimit(RLIMIT_NOFILE, &rLimit)]
    succeeds with [rLimit.Cur = cur], [None] when it returns an error. *)
Definition calculateOptimalWorkersLimit
    (st : store) (Getrlimit : option Z) (transport : RoundTripper) : Z :=
  let limit := MaxConcurrentWorkers (st DefaultParams) in
  let limit :=
    match Getrlimit with
    | Some Cur => if limit >? Cur then Cur else limit
    | None => limit
    end in
  match transport with
  | ptrTransport t =>
      if (MaxConnsPerHost t >? 0) && (uint64 (MaxConnsPerHost t) <? limit)
      then uint64 (MaxConnsPerHost t)
      else if (MaxIdleConnsPerHost t >? 0)
              && (uint64 (MaxIdleConnsPerHost t) <? limit)
      then uint64 (MaxIdleConnsPerHost t)
      else if (MaxIdleConns t >? 0) && (uint64 (MaxIdleConns t) <? limit)
      then uint64 (MaxIdleConns t)
      else limit
  | otherRoundTripper => limit
  end.

(** A value of [func(message []byte, err error)]: the empty function literal
    that [create] installs, or a function of the caller. *)
Inductive Handler : Type :=
| noop
| handler (id : nat).

(** [chan struct{}]: the elements carry nothing, so a buffered channel is its
    number of queued elements and its capacity. *)
Record chan : Type := mkChan {
  chan_len : Z;
  chan_cap : Z
}.

(** [make(chan struct{}, n)] for a [uint64] value [n]: [None] when [n] does
    not fit [int] and [make] panics (makechan: size out of range). *)
Definition make_chan (n : Z) : option chan :=
  if n <? 2 ^ 63 then Some (mkChan 0 n) else None.

(** [*rate.Limiter], by the arguments it was made from. *)
Record Limiter : Type := mkLimiter {
  every : Z;
  burst : Z
}.

(** The struct [Client].  [ctx] holds what [c.ctx.Err()] returns; [workers]
    is the counter of the [sync.WaitGroup]; [cancel] is the operation [Stop]
    below. *)
Record Client : Type := mkClient {
  url : string;
  notifyError : Handler;
  client : RoundTripper;
  ctx : option error;
  workers : Z;
  workersLimiter : chan;
  requestsLimiter : Limiter
}.

(** [func create(url string, params *ClientParams,
    transport http.RoundTripper) *Client].
    With [params == nil] the local variable [params] aliases [DefaultParams],
    so both assignments below write into the shared struct.  The result is
    the client, or [None] when [make] panics, and the memory as the call
    leaves it: the assignments come before [make]. *)
Definition create (url : string) (params : option ptrClientParams)
    (transport : RoundTripper) (Getrlimit : option Z) (st : store)
    : option Client * store :=
  let '(params, st) :=
    match params with
    | None =>
        let params := DefaultParams in
        (params,
         assign_MaxConcurrentWorkers st params
           (calculateOptimalWorkersLimit st Getrlimit transport))
    | Some p => (p, st)
    end in
  let st :=
    if MaxConcurrentWorkers (st params) =? 0
    then assign_MaxConcurrentWorkers st params 1
    else st in
  (match make_chan (MaxConcurrentWorkers (st params)) with
   | Some ch =>
       Some (mkClient url noop transport None 0 ch
               (mkLimiter (MaxRequestRate (st params))
                  (MaxRequestsPerRate (st params))))
   | None => None
   end,
   st).

(** [func New(url string, params *ClientParams) *Client] *)
Definition New (url : string) (params : option ptrClientParams)
    (Getrlimit : option Z) (st : store) : option Client * store :=
  create url params http_DefaultTransport Getrlimit st.

(** ** notifier.go: the running client *)

(** Which goroutine performs an observable operation: the goroutine
    executing the [Notify] call under study, a goroutine started by
    [go c.worker(...)], or some other goroutine using the same client. *)
Inductive actor : Type :=
| theCaller
| aWorker
| another.

(** The observable operations: a send on the gate
    ([c.workersLimiter <- struct{}{}]), [go c.worker(message)], a call
    [c.notifyError(message, e)] of the handler [h] registered at that moment,
    a receive from the gate ([<-c.workersLimiter]) and [c.workers.Done()]. *)
Inductive event : Type :=
| evAcquire
| evSpawn (message : bytes)
| evReport (h : Handler) (message : bytes) (e : NotifyErr)
| evRelease
| evDone.

(** Where a goroutine running [worker] stands: in the statements of the
    body, before its deferred receive from the gate, or after that receive
    and before its deferred [Done]. *)
Inductive stage : Type :=
| inBody
| atReceive
| atDone.

(** The client together with the goroutines started by [go c.worker(m)] that
    have not returned yet (each with its stage and its argument) and the
    trace so far, oldest event first. *)
Record System : Type := mkSystem {
  cl : Client;
  goroutines : list (stage * bytes);
  trace : list (actor * event)
}.

Definition start (c : Client) : System := mkSystem c [] [].

Definition emit (who : actor) (ev : event) (s : System) : System :=
  mkSystem (cl s) (goroutines s) (trace s ++ [(who, ev)]).

Definition set_notifyError (h : Handler) (c : Client) : Client :=
  mkClient (url c) h (client c) (ctx c) (workers c) (workersLimiter c)
    (requestsLimiter c).

Definition set_ctx (e : option error) (c : Client) : Client :=
  mkClient (url c) (notifyError c) (client c) e (workers c) (workersLimiter c)
    (requestsLimiter c).

Definition set_workers (n : Z) (c : Client) : Client :=
  mkClient (url c) (notifyError c) (client c) (ctx c) n (workersLimiter c)
    (requestsLimiter c).

Definition set_workersLimiter (ch : chan) (c : Client) : Client :=
  mkClient (url c) (notifyError c) (client c) (ctx c) (workers c) ch
    (requestsLimiter c).

Definition with_cl (f : Client -> Client) (s : System) : System :=
  mkSystem (f (cl s)) (goroutines s) (trace s).

(** A send in a [select] with a [default] branch: [None] when the buffer is
    full and the [default] branch is taken. *)
Definition try_send (ch : chan) : option chan :=
  if chan_len ch <? chan_cap ch
  then Some (mkChan (chan_len ch + 1) (chan_cap ch))
  else None.

(** A receive: [None] when the buffer is empty and the receive blocks. *)
Definition receive (ch : chan) : option chan :=
  if 0 <? chan_len ch
  then Some (mkChan (chan_len ch - 1) (chan_cap ch))
  else None.

(** [wg.Done()]: [None] when the counter would go negative and [Done]
    panics. *)
Definition wg_Done (n : Z) : option Z :=
  if 0 <? n then Some (n - 1) else None.

(** [c.notifyError(message, e)] *)
Definition call_notifyError (who : actor) (message : bytes) (e : NotifyErr)
    (s : System) : System :=
  emit who (evReport (notifyError (cl s)) message e) s.

(** [go c.worker(message)] *)
Definition go_worker (who : actor) (message : bytes) (s : System) : System :=
  emit who (evSpawn message)
    (mkSystem (cl s) (goroutines s ++ [(inBody, message)]) (trace s)).

(** What the three library calls of one run of [worker] return as their
    error: [http.NewRequestWithContext], [c.requestsLimiter.Wait] and
    [c.client.Do]. *)
Record Oracle : Type := mkOracle {
  NewRequestWithContext : option error;
  Wait : option error;
  Do : option error
}.

(** The statements of [worker] after its two [defer]s. *)
Definition worker_body (o : Oracle) (message : bytes) (s : System) : System :=
  match NewRequestWithContext o with
  | Some err =>
      let e := mkNotifyErr TypeSendError msgSendErrorRequest (Some err) in
      call_notifyError aWorker message e s
  | None =>
      match Wait o with
      | Some err =>
          let e :=
            mkNotifyErr TypeSendError msgSendErrorRateLimiter (Some err) in
          call_notifyError aWorker message e s
      | None =>
          match Do o with
          | Some err =>
              let e :=
                mkNotifyErr TypeSendError msgSendErrorClient (Some err) in
              call_notifyError aWorker message e s
          | None => s
          end
      end
  end.

(** [defer func() { <-c.workersLimiter }()] *)
Definition deferred_receive (s : System) : option System :=
  match receive (workersLimiter (cl s)) with
  | Some ch => Some (emit aWorker evRelease (with_cl (set_workersLimiter ch) s))
  | None => None
  end.

(** [defer c.workers.Done()] *)
Definition deferred_Done (s : System) : option System :=
  match wg_Done (workers (cl s)) with
  | Some n => Some (emit aWorker evDone (with_cl (set_workers n) s))
  | None => None
  end.

(** [func (c *Client) worker(message []byte)]: the body, then the deferred
    calls in the reverse order of their [defer] statements.  [None] when the
    goroutine cannot return (blocked in the receive, or panicking in
    [Done]). *)
Definition worker (o : Oracle) (message : bytes) (s : System) : option System :=
  match deferred_receive (worker_body o message s) with
  | Some s' => deferred_Done s'
  | None => None
  end.

(** [func (c *Client) OnError(handler func(message []byte, err error))] *)
Definition OnError (handler : option Handler) (c : Client) : Client :=
  match handler with
  | Some h => set_notifyError h c
  | None => c
  end.

(** [context.Canceled], the error that [errors.New] made when the package
    [context] was initialised. *)
Definition context_Canceled : error := errors_New 0 "context canceled".

(** [func (c *Client) Stop()]: [c.cancel()] records [context.Canceled] as the
    error of the context the first time it is called. *)
Definition Stop (c : Client) : Client :=
  match ctx c with
  | None => set_ctx (Some context_Canceled) c
  | Some _ => c
  end.

(** One iteration of the second loop of [Notify] when the [select] sends:
    the send, [c.workers.Add(1)] and [go c.worker(nextMsg)]; [None] when the
    [select] takes its [default] branch. *)
Definition try_dispatch (who : actor) (nextMsg : bytes) (s : System)
    : option System :=
  match try_send (workersLimiter (cl s)) with
  | Some ch =>
      let s := emit who evAcquire (with_cl (set_workersLimiter ch) s) in
      let s := with_cl (set_workers (workers (cl s) + 1)) s in
      Some (go_worker who nextMsg s)
  | None => None
  end.

(** A goroutine running [worker] from the stage it is in to its return:
    what is left of the body, then the deferred calls.  [None] when it
    cannot return (blocked in the receive, or panicking in [Done]). *)
Definition resume (st : stage) (o : Oracle) (message : bytes) (s : System)
    : option System :=
  match st with
  | inBody => worker o message s
  | atReceive =>
      match deferred_receive s with
      | Some s' => deferred_Done s'
      | None => None
      end
  | atDone => deferred_Done s
  end.

(** What another goroutine may do between two iterations of a loop of
    [Notify].  The [i]-th goroutine that runs [worker]: goes through the
    statements of the body, [actBody]; makes its deferred receive from the
    gate, [actReceive]; makes its deferred call of [Done] and ends,
    [actDone]; or does all that is left of these without any other goroutine
    in between, [actExit].  A concurrent [Notify] call goes through one
    iteration of its second loop, [actAdmit].  [OnError] or [Stop] is
    called. *)
Inductive action : Type :=
| actExit (i : nat) (o : Oracle)
| actBody (i : nat) (o : Oracle)
| actReceive (i : nat)
| actDone (i : nat)
| actAdmit (message : bytes)
| actOnError (h : option Handler)
| actStop.

Definition end_goroutine (i : nat) (s : System) : System :=
  mkSystem (cl s) (firstn i (goroutines s) ++ skipn (S i) (goroutines s))
    (trace s).

Definition set_stage (i : nat) (st : stage) (s : System) : System :=
  match nth_error (goroutines s) i with
  | Some (_, message) =>
      mkSystem (cl s)
        (firstn i (goroutines s) ++ (st, message) :: skipn (S i) (goroutines s))
        (trace s)
  | None => s
  end.

(** An action that is not enabled (no such goroutine, or not at that stage,
    a worker that cannot go on, a full gate) leaves the system as it is. *)
Definition act (a : action) (s : System) : System :=
  match a with
  | actExit i o =>
      match nth_error (goroutines s) i with
      | Some (st, message) =>
          match resume st o message (end_goroutine i s) with
          | Some s' => s'
          | None => s
          end
      | None => s
      end
  | actBody i o =>
      match nth_error (goroutines s) i with
      | Some (inBody, message) =>
          set_stage i atReceive (worker_body o message s)
      | _ => s
      end
  | actReceive i =>
      match nth_error (goroutines s) i with
      | Some (atReceive, _) =>
          match deferred_receive s with
          | Some s' => set_stage i atDone s'
          | None => s
          end
      | _ => s
      end
  | actDone i =>
      match nth_error (goroutines s) i with
      | Some (atDone, _) =>
          match deferred_Done (end_goroutine i s) with
          | Some s' => s'
          | None => s
          end
      | _ => s
      end
  | actAdmit message =>
      match try_dispatch another message s with
      | Some s' => s'
      | None => s
      end
  | actOnError h => with_cl (OnError h) s
  | actStop => with_cl Stop s
  end.

Definition interfere (acts : list action) (s : System) : System :=
  fold_left (fun s a => act a s) acts s.

(** A schedule gives, for each iteration of the loop of a [Notify] call, the
    actions of the other goroutines that happen just before it. *)
Definition schedule : Type := list (list action).

(** The first loop of [Notify], taken when the context is already
    cancelled; it ends in [return i, err]. *)
Fixpoint Notify_canceled (err : error) (sched : schedule)
    (messages : list bytes) (i : Z) (s : System)
    : (Z * option error) * System :=
  match messages with
  | [] => ((i, Some err), s)
  | msg :: rest =>
      let s := interfere (hd [] sched) s in
      let e := mkNotifyErr TypeContextCanceled "Client context canceled"
                 (Some err) in
      let s := call_notifyError theCaller msg e s in
      Notify_canceled err (tl sched) rest (i + 1) s
  end.

(** The second loop of [Notify] with the two [return]s that end it. *)
Fixpoint Notify_dispatch (sched : schedule) (messages : list bytes) (i : Z)
    (s : System) : (Z * option error) * System :=
  match messages with
  | [] => ((i, None), s)
  | nextMsg :: rest =>
      let s := interfere (hd [] sched) s in
      match try_dispatch theCaller nextMsg s with
      | Some s' => Notify_dispatch (tl sched) rest (i + 1) s'
      | None =>
          ((i,
            Some (ptrNotifyErr
                    (mkNotifyErr TypeWorkersLimitExceeded
                       "Workers limit exceeded" None))),
           s)
      end
  end.

(** [func (c *Client) Notify(messages ...[]byte) (int, error)] *)
Definition Notify (sched : schedule) (messages : list bytes) (s : System)
    : (Z * option error) * System :=
  match ctx (cl s) with
  | Some err => Notify_canceled err sched messages 0 s
  | None => Notify_dispatch sched messages 0 s
  end.

(** Histories of a client: calls of [Notify], each with the schedule of what
    happens concurrently, and actions outside of any such call. *)
Inductive call : Type :=
| callNotify (sched : schedule) (messages : list bytes)
| callAct (a : action).

Definition exec (c : call) (s : System) : System :=
  match c with
  | callNotify sched messages => snd (Notify sched messages s)
  | callAct a => act a s
  end.

Definition run (history : list call) (s : System) : System :=
  fold_left (fun s c => exec c s) history s.

(** ** Observations on traces *)

Definition new_events (before after : System) : list (actor * event) :=
  skipn (List.length (trace before)) (trace after).

Definition by_caller (t : list (actor * event)) : list event :=
  flat_map (fun ae => match fst ae with theCaller => [snd ae] | _ => [] end) t.

Definition is_acquire (ev : event) : bool :=
  match ev with
  | evAcquire => true
  | _ => false
  end.

Definition acquisitions (t : list event) : Z :=
  Z.of_nat (List.length (filter is_acquire t)).

Definition spawns (t : list event) : list bytes :=
  flat_map (fun ev => match ev with evSpawn m => [m] | _ => [] end) t.

Definition reports (t : list event) : list (Handler * bytes * NotifyErr) :=
  flat_map
    (fun ev => match ev with evReport h m e => [(h, m, e)] | _ => [] end) t.

(** Everything that [after] has appended to its trace since [before], with
    the calls of the error handler among it. *)
Definition sink_calls (before after : System)
    : list (Handler * bytes * NotifyErr) :=
  reports (map snd (new_events before after)).

(** Events of the workers and of the other goroutines. *)
Definition not_by_caller (d : list (actor * event)) : Prop :=
  Forall (fun ae => fst ae <> theCaller) d.

(** The report [Notify] makes for one message on a stopped client, through
    whichever handler is registered at that moment. *)
Definition canceled_report (err : error) (ev : event) (message : bytes)
    : Prop :=
  exists h : Handler,
    ev = evReport h message
           (mkNotifyErr TypeContextCanceled "Client context canceled"
              (Some err)).

(** The error of the [default] branch of the [select]. *)
Definition limit_exceeded : option error :=
  Some (ptrNotifyErr
          (mkNotifyErr TypeWorkersLimitExceeded "Workers limit exceeded" None)).

Definition gate_full (s : System) : Prop :=
  chan_cap (workersLimiter (cl s)) <= chan_len (workersLimiter (cl s)).

(** What the caller does for the messages it admits. *)
Definition admissions (messages : list bytes) : list event :=
  flat_map (fun m => [evAcquire; evSpawn m]) messages.

(** Schedules in which no concurrent [Notify] call takes a slot. *)
Definition is_admission (a : action) : bool :=
  match a with
  | actAdmit _ => true
  | _ => false
  end.

Definition no_admission (sched : schedule) : Prop :=
  Forall (Forall (fun a => is_admission a = false)) sched.

(** The number of workers that have not returned. *)
Definition outstanding (s : System) : Z :=
  Z.of_nat (List.length (goroutines s)).

(** A worker holds its slot of the gate until its deferred receive. *)
Definition holds_slot (g : stage * bytes) : bool :=
  match fst g with
  | atDone => false
  | _ => true
  end.

(** The number of workers that hold a slot of the gate. *)
Definition holders (s : System) : Z :=
  Z.of_nat (List.length (filter holds_slot (goroutines s))).

(** Every worker that has not made its deferred receive holds one slot of
    the gate, every worker that has not returned holds one unit of the wait
    group, and the gate of capacity [C] is not over-full. *)
Definition gate_inv (C : Z) (s : System) : Prop :=
  chan_cap (workersLimiter (cl s)) = C
  /\ chan_len (workersLimiter (cl s)) = holders s
  /\ workers (cl s) = outstanding s
  /\ holders s <= C.

(** The state that an iteration of the second loop of [Notify] leaves when
    its [select] sends: one more element in the gate, one more unit in the
    wait group, one more goroutine, in its body, and the two events. *)
Definition dispatched (who : actor) (message : bytes) (s : System) : System :=
  mkSystem
    (mkClient (url (cl s)) (notifyError (cl s)) (client (cl s)) (ctx (cl s))
       (workers (cl s) + 1)
       (mkChan (chan_len (workersLimiter (cl s)) + 1)
          (chan_cap (workersLimiter (cl s))))
       (requestsLimiter (cl s)))
    (goroutines s ++ [(inBody, message)])
    (trace s ++ [(who, evAcquire); (who, evSpawn message)]).

(** The state after the caller has taken a slot for each of the messages,
    with the other goroutines acting before each attempt as the schedule
    says. *)
Fixpoint after_admissions (sched : schedule) (messages : list bytes)
    (s : System) : System :=
  match messages with
  | [] => s
  | message :: rest =>
      after_admissions (tl sched) rest
        (dispatched theCaller message (interfere (hd [] sched) s))
  end.

(** The state in which the caller makes its attempt number [j] (counted
    from 0) on the gate, when its earlier attempts all took a slot. *)
Definition at_attempt (j : nat) (sched : schedule) (messages : list bytes)
    (s : System) : System :=
  interfere (hd [] (skipn j sched))
    (after_admissions sched (firstn j messages) s).

(** The hints a transport gives, in the order in which
    [calculateOptimalWorkersLimit] reads them. *)
Definition hints (transport : RoundTripper) : list Z :=
  match transport with
  | ptrTransport t => [MaxConnsPerHost t; MaxIdleConnsPerHost t; MaxIdleConns t]
  | otherRoundTripper => []
  end.

(** The values of the Go type [int]. *)
Definition is_int (x : Z) : Prop := - 2 ^ 63 <= x < 2 ^ 63.

(** The capacity as the specification words it: the minimum of the default
    100, the soft limit on open files and the smallest positive hint of the
    transport. *)
Definition capacity_by_smallest_hint (Cur : Z) (transport : RoundTripper) : Z :=
  fold_right Z.min (Z.min 100 Cur) (filter (fun h => 0 <? h) (hints transport)).

Definition capacity (c : Client) : Z := chan_cap (workersLimiter c).

(** ** Further operations and observations *)

(** [func (c *Client) Wait()]: [c.workers.Wait()] returns when the counter of
    the wait group is zero; [None] while it blocks. *)
Definition Client_Wait (s : System) : option System :=
  if workers (cl s) =? 0 then Some s else None.




(** The values of the Go type [uint64]. *)
Definition is_uint64 (x : Z) : Prop := 0 <= x < 2 ^ 64.

(** Clients made one after the other with nil parameters, each with its
    transport and the answer of [Getrlimit], on the shared memory. *)
Definition create_nil (st : store) (how : RoundTripper * option Z)
    : option Client * store :=
  create "" None (fst how) (snd how) st.

Definition then_create_nil (hows : list (RoundTripper * option Z)) (st : store)
    : store :=
  fold_left (fun st how => snd (create_nil st how)) hows st.

(** Counting the events of a trace. *)
Definition is_spawn (ev : event) : bool :=
  match ev with
  | evSpawn _ => true
  | _ => false
  end.

Definition is_release (ev : event) : bool :=
  match ev with
  | evRelease => true
  | _ => false
  end.

Definition is_done (ev : event) : bool :=
  match ev with
  | evDone => true
  | _ => false
  end.

Definition count (p : event -> bool) (t : list (actor * event)) : Z :=
  Z.of_nat (List.length (filter (fun ae => p (snd ae)) t)).

(** What a call of the handler may look like: made by a worker with a
    [NotifyErr] of kind [TypeSendError], or made by [Notify] itself with one
    of kind [TypeContextCanceled]; in both cases with a cause. *)
Definition report_ok (ae : actor * event) : Prop :=
  match snd ae with
  | evReport _ _ e =>
      ((fst ae = aWorker /\ Type_ e = TypeSendError)
       \/ (fst ae = theCaller /\ Type_ e = TypeContextCanceled))
      /\ Err e <> None
  | _ => True
  end.

(** A worker run in which one of the three library calls fails. *)
Definition fails (o : Oracle) : bool :=
  match NewRequestWithContext o, Wait o, Do o with
  | None, None, None => false
  | _, _, _ => true
  end.

(** A step of the system that keeps the accounts: it appends events to the
    trace, as many sends on the gate as workers started, moves the length of
    the gate by the sends less the receives and the counter of the wait
    group by the workers started less the calls of [Done], and calls the
    handler only in the two ways of [report_ok]. *)
Definition accounted (s s' : System) : Prop :=
  exists d : list (actor * event),
    trace s' = trace s ++ d
    /\ count is_acquire d = count is_spawn d
    /\ workers (cl s') = workers (cl s) + count is_spawn d - count is_done d
    /\ chan_len (workersLimiter (cl s'))
       = chan_len (workersLimiter (cl s))
         + count is_acquire d - count is_release d
    /\ Forall report_ok d.

(** What a step leaves alone in the client: everything but the gate's
    length and the counter. *)
Definition same_settings (c c' : Client) : Prop :=
  url c' = url c
  /\ notifyError c' = notifyError c
  /\ client c' = client c
  /\ ctx c' = ctx c
  /\ chan_cap (workersLimiter c') = chan_cap (workersLimiter c)
  /\ requestsLimiter c' = requestsLimiter c.

(** ** cmd/notify/main.go: the loop over standard input *)

Definition newline : Init.Byte.byte := Init.Byte.x0a.

(** [reader.ReadString('\n')] on the unread bytes of a standard input that
    ends: the bytes up to and including the first newline with a nil error,
    or all that is left with [io.EOF] (the flag) when there is no newline.
    The second component is what stays unread. *)
Fixpoint ReadString (stdin : bytes) : bytes * bytes * bool :=
  match stdin with
  | [] => ([], [], true)
  | b :: rest =>
      if Strings.Byte.eqb b newline
      then ([b], rest, false)
      else
        let '(line, unread, eof) := ReadString rest in
        (b :: line, unread, eof)
  end.

(** [strings.TrimSuffix(nextLine, "\n")] *)
Definition TrimSuffix (nextLine : bytes) : bytes :=
  match rev nextLine with
  | b :: before =>
      if Strings.Byte.eqb b newline then rev before else nextLine
  | [] => nextLine
  end.

(** The loop labelled [readLoop] of [main].  [interrupt] says, for each
    iteration, whether the receive from the channel [interrupt] is ready;
    [sched] gives what the other goroutines do before each call of [Notify]
    (the sleep after the call is part of it).  The result lists the calls
    [notify.Notify([]byte(msg))] with what they returned; [None] when the
    fuel runs out. *)
Fixpoint readLoop (fuel : nat) (interrupt : list bool) (sched : schedule)
    (stdin : bytes) (s : System)
    : option (list (bytes * (Z * option error)) * System) :=
  match fuel with
  | O => None
  | S fuel' =>
      if hd false interrupt
      then Some ([], s)
      else
        let '(nextLine, unread, eof) := ReadString stdin in
        if eof
        then Some ([], s)
        else
          let msg := TrimSuffix nextLine in
          let '(result, s') := Notify [hd [] sched] [msg] s in
          match readLoop fuel' (tl interrupt) (tl sched) unread s' with
          | Some (calls, s'') => Some ((msg, result) :: calls, s'')
          | None => None
          end
  end.

(** The input made of the given lines, each followed by a newline, and of a
    last piece that no newline follows. *)
Definition lines_then (lines : list bytes) (last : bytes) : bytes :=
  flat_map (fun l => l ++ [newline]) lines ++ last.

Definition no_newline (l : bytes) : Prop := ~ In newline l.


(** The function literal that [main] gives to [OnError]; it logs the message
    and the error. *)
Definition log_failure : Handler := handler 0.

(** [main] from [notifier.New(urlFlag, nil)] to the end of the loop
    [readLoop], before [notify.Wait()]: the flags and the tracing are left
    out, and what the goroutine [handleSignals] does ([notify.Stop()], then
    closing [interrupt]) is part of [sched] and [interrupt].  [main] is the
    first to use the package, so [DefaultParams] is as the package
    initialises it.  [None] when [New] panics or the fuel runs out. *)
Definition main_until_Wait (urlFlag : string) (Getrlimit : option Z)
    (fuel : nat) (interrupt : list bool) (sched : schedule) (stdin : bytes)
    : option (list (bytes * (Z * option error)) * System) :=
  match fst (New urlFlag None Getrlimit
               (initial_store (fun _ => DefaultParams_init))) with
  | Some notify =>
      let notify := OnError (Some log_failure) notify in
      readLoop fuel interrupt sched stdin (start notify)
  | None => None
  end.

(** The actions that are calls of [OnError] or [Stop], and the histories
    without any. *)
Definition is_setting (a : action) : bool :=
  match a with
  | actOnError _ => true
  | actStop => true
  | _ => false
  end.

(** The outcome of [create] as a capacity: [None] when it panics. *)
Definition made_capacity (r : option Client * store) : option Z :=
  option_map capacity (fst r).

Definition quiet_sched (sched : schedule) : Prop :=
  Forall (Forall (fun a => is_setting a = false)) sched.

Definition quiet (c : call) : Prop :=
  match c with
  | callNotify sched _ => quiet_sched sched
  | callAct a => is_setting a = false
  end.


(** What [create] has left in [MaxConcurrentWorkers] of the struct behind
    [DefaultParams]. *)
Definition written (r : option Client * store) : Z :=
  MaxConcurrentWorkers (snd r DefaultParams).

(** The outcome of [make(chan struct{}, n)] as a capacity. *)
Definition made_of (n : Z) : option Z := option_map chan_cap (make_chan n).
(** * Properties *)

(** ** Helper lemmas on traces *)

Lemma skipn_length_app {A : Type} (l d : list A) :
  skipn (List.length l) (l ++ d) = d.
Proof.
  induction l as [| x l IH]; simpl; auto.
Qed.

Lemma new_events_app (s s' : System) (d : list (actor * event)) :
  trace s' = trace s ++ d -> new_events s s' = d.
Proof.
  intros H. unfold new_events. rewrite H. apply skipn_length_app.
Qed.

Lemma new_events_refl (s : System) : new_events s s = [].
Proof.
  apply new_events_app. now rewrite app_nil_r.
Qed.

Lemma trace_emit who ev s : trace (emit who ev s) = trace s ++ [(who, ev)].
Proof. reflexivity. Qed.

(** ** The error type *)

(** The tests of errors_test.go; [errors.New("test err")] is at address 1. *)
Example TestNotifyErr_Error :
  Error (mkNotifyErr TypeContextCanceled "test error message"
           (Some (errors_New 1 "test err")))
  = "test error message: test err".
Proof. reflexivity. Qed.

Example TestNotifyErr_Unwrap :
  errors_Is
    (ptrNotifyErr (mkNotifyErr TypeContextCanceled "test error message"
                     (Some (errors_New 1 "test err"))))
    (errors_New 1 "test err") = true.
Proof. reflexivity. Qed.

Example TestNotifyErr_Is :
  errors_Is
    (ptrNotifyErr (mkNotifyErr TypeContextCanceled "test error message" None))
    (ptrNotifyErr (mkNotifyErr TypeContextCanceled "" None)) = true.
Proof. reflexivity. Qed.

(** Another [errors.New] with the same text is another error. *)
Example errors_New_same_text_is_another_error :
  errors_Is
    (ptrNotifyErr (mkNotifyErr TypeContextCanceled "test error message"
                     (Some (errors_New 1 "test err"))))
    (errors_New 2 "test err") = false.
Proof. reflexivity. Qed.

(** C7: [Is] on two [NotifyErr] values is true exactly when they carry the
    same kind, whatever their message text and wrapped cause are; against a
    target that is not a [NotifyErr] (an error of another type, or nil) it is
    false. *)
Theorem Is_compares_kind_only :
  (forall e t : NotifyErr,
      Is e (Some (ptrNotifyErr t)) = true <-> Type_ e = Type_ t)
  /\ (forall (ty : Z) (m1 m2 : string) (c1 c2 : option error),
         Is (mkNotifyErr ty m1 c1) (Some (ptrNotifyErr (mkNotifyErr ty m2 c2)))
         = true)
  /\ (forall (e : NotifyErr) (addr : nat) (text : string)
             (cause : option error),
         Is e (Some (otherError addr text cause)) = false)
  /\ (forall e : NotifyErr, Is e None = false).
Proof.
  repeat split.
  - unfold Is. intros H. now apply Z.eqb_eq.
  - unfold Is. intros H. now apply Z.eqb_eq.
  - intros ty m1 m2 c1 c2. unfold Is. simpl. apply Z.eqb_refl.
Qed.

(** ** The error handler *)

(** C8: [OnError] with a non-nil handler installs it, so after any sequence
    of [OnError] calls the handler is the last non-nil one that was passed;
    [OnError(nil)] changes nothing, and a sequence of them leaves the handler
    registered before in place. *)
Theorem OnError_last_non_nil_wins :
  (forall (c : Client) (h : Handler), notifyError (OnError (Some h) c) = h)
  /\ (forall c : Client, OnError None c = c)
  /\ (forall (c : Client) (before : list (option Handler)) (h : Handler)
             (n : nat),
         notifyError
           (fold_left (fun c h => OnError h c)
              (before ++ Some h :: repeat None n) c) = h)
  /\ (forall (c : Client) (n : nat),
         fold_left (fun c h => OnError h c) (repeat None n) c = c).
Proof.
  assert (Hnil : forall (n : nat) (c : Client),
             fold_left (fun c h => OnError h c) (repeat None n) c = c).
  { induction n as [| n IH]; intros c; simpl; auto. }
  repeat split; auto.
  intros c before h n.
  rewrite fold_left_app. simpl. now rewrite Hnil.
Qed.

(** ** One run of a worker *)

Lemma worker_trace o message s s' :
  worker o message s = Some s' ->
  trace s' = trace (worker_body o message s)
             ++ [(aWorker, evRelease); (aWorker, evDone)].
Proof.
  unfold worker, deferred_receive, deferred_Done.
  destruct (receive _) as [ch |]; [| discriminate].
  simpl. destruct (wg_Done _) as [n |]; [| discriminate].
  intros H. injection H as <-. simpl. now rewrite <- app_assoc.
Qed.

Lemma worker_body_trace o message s :
  exists d,
    trace (worker_body o message s) = trace s ++ d
    /\ Forall (fun ae => fst ae = aWorker) d.
Proof.
  unfold worker_body, call_notifyError.
  destruct (NewRequestWithContext o); [| destruct (Wait o); [| destruct (Do o)]];
    try (eexists; split; [apply trace_emit | repeat constructor]).
  exists []. split; [now rewrite app_nil_r | constructor].
Qed.

Lemma sink_calls_call_notifyError who message e s :
  sink_calls s (call_notifyError who message e s)
  = [(notifyError (cl s), message, e)].
Proof.
  unfold sink_calls, call_notifyError.
  now rewrite (new_events_app _ _ _ (trace_emit _ _ _)).
Qed.

(** C6: a run of [worker] calls the error handler exactly once, with the
    message of the task and a [NotifyErr] of kind [TypeSendError], when the
    first library call that fails is the construction of the request, the
    wait on the rate limiter or the transport call; the text of the error
    names that step and [Unwrap] gives the library's error back.  When the
    three calls succeed the handler is not called.  The deferred calls add
    no call of the handler. *)
Theorem worker_reports_failure_once (message : bytes) (s : System) :
  let h := notifyError (cl s) in
  (forall (err : error) (w d : option error),
      sink_calls s (worker_body (mkOracle (Some err) w d) message s)
      = [(h, message,
          mkNotifyErr TypeSendError
            "Fail send message, unable to create request" (Some err))])
  /\ (forall (err : error) (d : option error),
         sink_calls s (worker_body (mkOracle None (Some err) d) message s)
         = [(h, message,
             mkNotifyErr TypeSendError
               "Fail send message, rate limiter error" (Some err))])
  /\ (forall err : error,
         sink_calls s (worker_body (mkOracle None None (Some err)) message s)
         = [(h, message,
             mkNotifyErr TypeSendError
               "Fail send message, unable to do request" (Some err))])
  /\ sink_calls s (worker_body (mkOracle None None None) message s) = []
  /\ (forall (o : Oracle) (s' : System),
         worker o message s = Some s' ->
         sink_calls s s' = sink_calls s (worker_body o message s))
  /\ (forall (ty : Z) (text : string) (err : error),
         Unwrap (mkNotifyErr ty text (Some err)) = Some err)
  /\ msgSendErrorRequest <> msgSendErrorRateLimiter
  /\ msgSendErrorRequest <> msgSendErrorClient
  /\ msgSendErrorRateLimiter <> msgSendErrorClient.
Proof.
  intros h.
  repeat split; try discriminate.
  - intros err w d. apply sink_calls_call_notifyError.
  - intros err d. apply sink_calls_call_notifyError.
  - intros err. apply sink_calls_call_notifyError.
  - unfold sink_calls. cbn [worker_body NewRequestWithContext Wait Do].
    now rewrite new_events_refl.
  - unfold sink_calls. intros o s' Hw. apply worker_trace in Hw.
    destruct (worker_body_trace o message s) as [d [Hd _]].
    rewrite Hd in Hw. rewrite <- app_assoc in Hw.
    rewrite (new_events_app _ _ _ Hw), (new_events_app _ _ _ Hd).
    rewrite map_app. unfold reports. rewrite flat_map_app. simpl.
    now rewrite app_nil_r.
Qed.

(** ** The steps of a worker *)

Lemma nth_error_split_at {A : Type} (l : list A) (i : nat) (x : A) :
  nth_error l i = Some x -> l = firstn i l ++ x :: skipn (S i) l.
Proof.
  revert i. induction l as [| y l IH]; intros [| i] H; try discriminate.
  - injection H as ->. reflexivity.
  - simpl in H. simpl. f_equal. now apply IH.
Qed.

Lemma worker_body_state o message s :
  cl (worker_body o message s) = cl s
  /\ goroutines (worker_body o message s) = goroutines s.
Proof.
  unfold worker_body, call_notifyError.
  destruct (NewRequestWithContext o); [| destruct (Wait o); [| destruct (Do o)]];
    split; reflexivity.
Qed.

Lemma deferred_receive_spec s s' :
  deferred_receive s = Some s' ->
  0 < chan_len (workersLimiter (cl s))
  /\ s' = mkSystem
            (set_workersLimiter
               (mkChan (chan_len (workersLimiter (cl s)) - 1)
                  (chan_cap (workersLimiter (cl s)))) (cl s))
            (goroutines s) (trace s ++ [(aWorker, evRelease)]).
Proof.
  unfold deferred_receive, receive.
  destruct (Z.ltb_spec 0 (chan_len (workersLimiter (cl s)))) as [Hpos | _];
    [| discriminate].
  intros E. injection E as <-. split; [exact Hpos | reflexivity].
Qed.

Lemma deferred_Done_spec s s' :
  deferred_Done s = Some s' ->
  0 < workers (cl s)
  /\ s' = mkSystem (set_workers (workers (cl s) - 1) (cl s))
            (goroutines s) (trace s ++ [(aWorker, evDone)]).
Proof.
  unfold deferred_Done, wg_Done.
  destruct (Z.ltb_spec 0 (workers (cl s))) as [Hpos | _]; [| discriminate].
  intros E. injection E as <-. split; [exact Hpos | reflexivity].
Qed.

Lemma set_stage_state i st s :
  cl (set_stage i st s) = cl s /\ trace (set_stage i st s) = trace s.
Proof.
  unfold set_stage. destruct (nth_error (goroutines s) i) as [[st0 m] |];
    split; reflexivity.
Qed.

(** ** What the other goroutines add to the trace *)

Lemma by_caller_app a b : by_caller (a ++ b) = by_caller a ++ by_caller b.
Proof. apply flat_map_app. Qed.

Lemma by_caller_others d : not_by_caller d -> by_caller d = [].
Proof.
  induction 1 as [| [who ev] d Hwho _ IH]; simpl; auto.
  destruct who; simpl in *; auto. congruence.
Qed.

Lemma try_dispatch_trace who message s s' :
  try_dispatch who message s = Some s' ->
  trace s' = trace s ++ [(who, evAcquire); (who, evSpawn message)].
Proof.
  unfold try_dispatch. destruct (try_send _) as [ch |]; [| discriminate].
  intros H. injection H as <-. simpl. now rewrite <- app_assoc.
Qed.

Lemma others_refl (t : list (actor * event)) :
  exists d, t = t ++ d /\ not_by_caller d.
Proof.
  exists []. split; [now rewrite app_nil_r | constructor].
Qed.

Lemma others_trans (t1 t2 t3 : list (actor * event)) :
  (exists d, t2 = t1 ++ d /\ not_by_caller d) ->
  (exists d, t3 = t2 ++ d /\ not_by_caller d) ->
  exists d, t3 = t1 ++ d /\ not_by_caller d.
Proof.
  intros [d1 [H1 N1]] [d2 [H2 N2]]. exists (d1 ++ d2). split.
  - rewrite H2, H1. now rewrite app_assoc.
  - now apply Forall_app.
Qed.

Lemma worker_body_others o message s :
  exists d, trace (worker_body o message s) = trace s ++ d /\ not_by_caller d.
Proof.
  destruct (worker_body_trace o message s) as [d [Hd Hall]].
  exists d. split; [exact Hd |].
  eapply Forall_impl; [| exact Hall]. intros ae ->. discriminate.
Qed.

Lemma deferred_receive_others s s' :
  deferred_receive s = Some s' ->
  exists d, trace s' = trace s ++ d /\ not_by_caller d.
Proof.
  intros H. apply deferred_receive_spec in H. destruct H as [_ ->].
  eexists. split; [reflexivity |]. repeat constructor. discriminate.
Qed.

Lemma deferred_Done_others s s' :
  deferred_Done s = Some s' ->
  exists d, trace s' = trace s ++ d /\ not_by_caller d.
Proof.
  intros H. apply deferred_Done_spec in H. destruct H as [_ ->].
  eexists. split; [reflexivity |]. repeat constructor. discriminate.
Qed.

Lemma resume_others st o message s s' :
  resume st o message s = Some s' ->
  exists d, trace s' = trace s ++ d /\ not_by_caller d.
Proof.
  destruct st; cbn [resume].
  - unfold worker.
    destruct (deferred_receive (worker_body o message s)) as [s1 |] eqn:Hr;
      [| discriminate].
    intros Hd.
    eapply others_trans; [apply worker_body_others |].
    eapply others_trans; [eapply deferred_receive_others; eassumption |].
    eapply deferred_Done_others; eassumption.
  - destruct (deferred_receive s) as [s1 |] eqn:Hr; [| discriminate].
    intros Hd.
    eapply others_trans; [eapply deferred_receive_others; eassumption |].
    eapply deferred_Done_others; eassumption.
  - apply deferred_Done_others.
Qed.

Lemma act_trace a s :
  exists d, trace (act a s) = trace s ++ d /\ not_by_caller d.
Proof.
  destruct a as [i o | i o | i | i | message | h |]; cbn [act].
  - destruct (nth_error (goroutines s) i) as [[st message] |];
      [| apply others_refl].
    destruct (resume st o message (end_goroutine i s)) as [s' |] eqn:Hw;
      [| apply others_refl].
    now apply resume_others in Hw.
  - destruct (nth_error (goroutines s) i) as [[[| |] message] |];
      try apply others_refl.
    destruct (set_stage_state i atReceive (worker_body o message s)) as [_ ->].
    apply worker_body_others.
  - destruct (nth_error (goroutines s) i) as [[[| |] message] |];
      try apply others_refl.
    destruct (deferred_receive s) as [s' |] eqn:Hr; [| apply others_refl].
    destruct (set_stage_state i atDone s') as [_ ->].
    now apply deferred_receive_others.
  - destruct (nth_error (goroutines s) i) as [[[| |] message] |];
      try apply others_refl.
    destruct (deferred_Done (end_goroutine i s)) as [s' |] eqn:Hd;
      [| apply others_refl].
    now apply deferred_Done_others in Hd.
  - destruct (try_dispatch another message s) as [s' |] eqn:Ha;
      [| apply others_refl].
    apply try_dispatch_trace in Ha. eexists. split; [exact Ha |].
    repeat constructor; discriminate.
  - apply others_refl.
  - apply others_refl.
Qed.

Lemma interfere_trace acts :
  forall s,
  exists d, trace (interfere acts s) = trace s ++ d /\ not_by_caller d.
Proof.
  induction acts as [| a acts IH]; intros s.
  - apply others_refl.
  - change (interfere (a :: acts) s) with (interfere acts (act a s)).
    eapply others_trans; [apply act_trace | apply IH].
Qed.

(** ** [Notify] on a stopped client *)

Lemma Notify_canceled_spec (err : error) :
  forall (messages : list bytes) (sched : schedule) (i : Z) (s : System),
  exists d,
    trace (snd (Notify_canceled err sched messages i s)) = trace s ++ d
    /\ fst (Notify_canceled err sched messages i s)
       = (i + Z.of_nat (List.length messages), Some err)
    /\ Forall2 (canceled_report err) (by_caller d) messages.
Proof.
  induction messages as [| msg rest IH]; intros sched i s.
  - exists []. simpl. rewrite app_nil_r, Z.add_0_r. repeat split. constructor.
  - cbn [Notify_canceled].
    destruct (interfere_trace (hd [] sched) s) as [d1 [H1 N1]].
    set (s1 := interfere (hd [] sched) s) in *.
    set (e := mkNotifyErr TypeContextCanceled "Client context canceled" (Some err)).
    destruct (IH (tl sched) (i + 1) (call_notifyError theCaller msg e s1))
      as [d3 [H3 [R3 F3]]].
    exists (d1 ++ [(theCaller, evReport (notifyError (cl s1)) msg e)] ++ d3).
    repeat split.
    + rewrite H3. unfold call_notifyError. rewrite trace_emit, H1.
      now rewrite <- !app_assoc.
    + rewrite R3. f_equal. simpl List.length. lia.
    + rewrite !by_caller_app, (by_caller_others _ N1). simpl.
      constructor; [now exists (notifyError (cl s1)) | exact F3].
Qed.

Lemma canceled_reports_no_spawn err evs messages :
  Forall2 (canceled_report err) evs messages ->
  spawns evs = [] /\ acquisitions evs = 0
  /\ map (fun r => snd (fst r)) (reports evs) = messages.
Proof.
  induction 1 as [| ev m evs ms [h ->] _ [IH1 [IH2 IH3]]].
  - repeat split.
  - repeat split; simpl; auto. now f_equal.
Qed.

(** C3: on a client that has been stopped, [Notify] reports every message of
    the batch once, in order, with a [NotifyErr] of kind
    [TypeContextCanceled], starts no worker and returns the length of the
    batch.  The error it returns is the error of the context itself,
    [context.Canceled]: it is not a [NotifyErr], carries no kind, and does
    not match a [NotifyErr] of kind [TypeContextCanceled], although the
    comment of [Notify] announces a [NotifyErr] with that type. *)
Theorem Notify_after_Stop_returns_context_error
    (sched : schedule) (messages : list bytes) (s : System) :
  ctx (cl s) = None ->
  let stopped := with_cl Stop s in
  let r := Notify sched messages stopped in
  let evs := by_caller (new_events stopped (snd r)) in
  fst r = (Z.of_nat (List.length messages), Some context_Canceled)
  /\ Forall2 (canceled_report context_Canceled) evs messages
  /\ spawns evs = []
  /\ map (fun c => snd (fst c)) (reports evs) = messages
  /\ kind_of (snd (fst r)) = None
  /\ Is (mkNotifyErr TypeContextCanceled "" None) (snd (fst r)) = false
  /\ errors_Is context_Canceled
       (ptrNotifyErr (mkNotifyErr TypeContextCanceled "" None)) = false.
Proof.
  intros Hctx stopped r evs.
  assert (Hstop : ctx (cl stopped) = Some context_Canceled).
  { unfold stopped, with_cl, Stop. simpl. now rewrite Hctx. }
  destruct (Notify_canceled_spec context_Canceled messages sched 0 stopped)
    as [d [Ht [Hr Hf]]].
  assert (Hn : Notify sched messages stopped
               = Notify_canceled context_Canceled sched messages 0 stopped).
  { unfold Notify. now rewrite Hstop. }
  assert (Hevs : evs = by_caller d).
  { unfold evs, r. rewrite Hn. now rewrite (new_events_app _ _ _ Ht). }
  assert (Hres : fst r = (Z.of_nat (List.length messages), Some context_Canceled)).
  { unfold r. rewrite Hn, Hr. reflexivity. }
  rewrite Hevs, Hres.
  destruct (canceled_reports_no_spawn _ _ _ Hf) as [Hs [_ Hm]].
  repeat split; auto.
Qed.

Lemma Notify_after_Stop_witness :
  let messages := [list_byte_of_string "msg 0"; list_byte_of_string "msg 1"] in
  exists c : Client,
    fst (New "http://localhost:8080/notify" None (Some 1024)
           (initial_store (fun _ => DefaultParams_init))) = Some c
    /\ ctx (cl (start c)) = None
    /\ fst (Notify [] messages (with_cl Stop (start c)))
       = (2, Some context_Canceled).
Proof.
  intros messages. eexists. split; [reflexivity |]. split; [reflexivity |].
  match goal with
  | |- fst (Notify [] _ (with_cl Stop ?s)) = _ =>
      exact (proj1 (Notify_after_Stop_returns_context_error [] messages s
                      eq_refl))
  end.
Defined.

(** C10: with no message, [Notify] starts no worker and calls no handler (the
    system is left as it was); it returns [(0, nil)] on a client that was not
    stopped and [(0, err)] with the non-nil error of the cancelled context on
    a stopped one, which after [Stop] is [context.Canceled]. *)
Theorem Notify_empty_batch (sched : schedule) (s : System) :
  (ctx (cl s) = None -> Notify sched [] s = ((0, None), s))
  /\ (forall err : error,
         ctx (cl s) = Some err -> Notify sched [] s = ((0, Some err), s))
  /\ (exists err : error,
         Notify sched [] (with_cl Stop s) = ((0, Some err), with_cl Stop s))
  /\ (ctx (cl s) = None ->
      Notify sched [] (with_cl Stop s)
      = ((0, Some context_Canceled), with_cl Stop s)).
Proof.
  unfold Notify. repeat split.
  - now intros ->.
  - now intros err ->.
  - simpl. unfold Stop. destruct (ctx (cl s)) as [err |] eqn:E.
    + exists err. now rewrite E.
    + now exists context_Canceled.
  - intros E. simpl. unfold Stop. now rewrite E.
Qed.

(** ** [Notify] on a running client *)

Lemma admissions_observed messages :
  acquisitions (admissions messages) = Z.of_nat (List.length messages)
  /\ spawns (admissions messages) = messages
  /\ reports (admissions messages) = [].
Proof.
  induction messages as [| m rest [IH1 [IH2 IH3]]]; [repeat split |].
  unfold acquisitions in *. simpl. repeat split.
  - simpl List.length. lia.
  - now f_equal.
  - exact IH3.
Qed.

Lemma try_dispatch_refused who message s :
  try_dispatch who message s = None -> gate_full s.
Proof.
  unfold try_dispatch, try_send, gate_full.
  destruct (chan_len _ <? chan_cap _) eqn:E; [discriminate |].
  intros _. apply Z.ltb_ge in E. exact E.
Qed.

Lemma Notify_dispatch_spec :
  forall (messages : list bytes) (sched : schedule) (i : Z) (s : System),
  exists (k : nat) (d : list (actor * event)),
    trace (snd (Notify_dispatch sched messages i s)) = trace s ++ d
    /\ by_caller d = admissions (firstn k messages)
    /\ fst (fst (Notify_dispatch sched messages i s)) = i + Z.of_nat k
    /\ ((k = List.length messages
         /\ snd (fst (Notify_dispatch sched messages i s)) = None)
        \/ ((k < List.length messages)%nat
            /\ snd (fst (Notify_dispatch sched messages i s)) = limit_exceeded
            /\ gate_full (snd (Notify_dispatch sched messages i s)))).
Proof.
  induction messages as [| nextMsg rest IH]; intros sched i s.
  - exists 0%nat, []. simpl. rewrite app_nil_r, Z.add_0_r.
    repeat split. now left.
  - cbn [Notify_dispatch].
    destruct (interfere_trace (hd [] sched) s) as [d1 [H1 N1]].
    set (s1 := interfere (hd [] sched) s) in *.
    destruct (try_dispatch theCaller nextMsg s1) as [s2 |] eqn:Ha.
    + apply try_dispatch_trace in Ha.
      destruct (IH (tl sched) (i + 1) s2) as [k [d3 [H3 [B3 [R3 C3]]]]].
      exists (S k),
        (d1 ++ [(theCaller, evAcquire); (theCaller, evSpawn nextMsg)] ++ d3).
      repeat split.
      * rewrite H3, Ha, H1. now rewrite <- !app_assoc.
      * rewrite !by_caller_app, (by_caller_others _ N1), B3. reflexivity.
      * rewrite R3. lia.
      * destruct C3 as [[-> Hnone] | [Hlt [Herr Hfull]]].
        -- left. now split.
        -- right. repeat split; auto. simpl List.length. lia.
    + exists 0%nat, d1. simpl.
      repeat split; auto.
      * now apply by_caller_others.
      * lia.
      * right. repeat split; [lia |]. now apply try_dispatch_refused in Ha.
Qed.

Lemma Notify_running_spec (sched : schedule) (messages : list bytes)
    (s : System) :
  ctx (cl s) = None ->
  exists k : nat,
    by_caller (new_events s (snd (Notify sched messages s)))
    = admissions (firstn k messages)
    /\ fst (fst (Notify sched messages s)) = Z.of_nat k
    /\ ((k = List.length messages /\ snd (fst (Notify sched messages s)) = None)
        \/ ((k < List.length messages)%nat
            /\ snd (fst (Notify sched messages s)) = limit_exceeded
            /\ gate_full (snd (Notify sched messages s)))).
Proof.
  intros Hctx. unfold Notify. rewrite Hctx.
  destruct (Notify_dispatch_spec messages sched 0 s) as [k [d [Ht [Hb [Hr Hc]]]]].
  exists k. rewrite (new_events_app _ _ _ Ht). repeat split; auto.
Qed.

(** One iteration of the second loop, by what it finds at the gate. *)
Lemma try_dispatch_sends who message s :
  try_dispatch who message s
  = if chan_len (workersLimiter (cl s)) <? chan_cap (workersLimiter (cl s))
    then Some (dispatched who message s)
    else None.
Proof.
  unfold try_dispatch, try_send, dispatched, go_worker, emit, with_cl.
  destruct (chan_len _ <? chan_cap _); [| reflexivity].
  cbn. now rewrite <- app_assoc.
Qed.

Lemma gate_not_full s :
  ~ gate_full s ->
  (chan_len (workersLimiter (cl s)) <? chan_cap (workersLimiter (cl s)))
  = true.
Proof.
  unfold gate_full. intros H. apply Z.ltb_lt. lia.
Qed.

Lemma gate_is_full s :
  gate_full s ->
  (chan_len (workersLimiter (cl s)) <? chan_cap (workersLimiter (cl s)))
  = false.
Proof.
  unfold gate_full. intros H. apply Z.ltb_ge. lia.
Qed.

Lemma skipn_S_tl {A : Type} (j : nat) (l : list A) :
  skipn (S j) l = skipn j (tl l).
Proof.
  destruct l; simpl; [now rewrite skipn_nil | reflexivity].
Qed.

Lemma at_attempt_first sched messages s :
  at_attempt 0 sched messages s = interfere (hd [] sched) s.
Proof. reflexivity. Qed.

Lemma at_attempt_next j sched message rest s :
  at_attempt (S j) sched (message :: rest) s
  = at_attempt j (tl sched) rest
      (dispatched theCaller message (interfere (hd [] sched) s)).
Proof.
  unfold at_attempt. rewrite skipn_S_tl. reflexivity.
Qed.

Lemma Notify_dispatch_stops :
  forall (messages : list bytes) (sched : schedule) (i : Z) (s : System)
         (k : nat),
    (k < List.length messages)%nat ->
    (forall j : nat,
        (j < k)%nat -> ~ gate_full (at_attempt j sched messages s)) ->
    gate_full (at_attempt k sched messages s) ->
    Notify_dispatch sched messages i s
    = ((i + Z.of_nat k, limit_exceeded), at_attempt k sched messages s).
Proof.
  induction messages as [| nextMsg rest IH]; intros sched i s k Hk Hfree Hfull.
  - simpl in Hk. lia.
  - cbn [Notify_dispatch]. rewrite try_dispatch_sends.
    destruct k as [| k].
    + rewrite at_attempt_first in Hfull. rewrite (gate_is_full _ Hfull).
      rewrite at_attempt_first, Z.add_0_r. reflexivity.
    + pose proof (Hfree 0%nat ltac:(lia)) as H0.
      rewrite at_attempt_first in H0. rewrite (gate_not_full _ H0).
      rewrite at_attempt_next in Hfull.
      rewrite (IH (tl sched) (i + 1) _ k); [| simpl in Hk; lia | | exact Hfull].
      * rewrite at_attempt_next. f_equal. f_equal. lia.
      * intros j Hj. specialize (Hfree (S j) ltac:(lia)).
        now rewrite at_attempt_next in Hfree.
Qed.

Lemma Notify_dispatch_admits_all :
  forall (messages : list bytes) (sched : schedule) (i : Z) (s : System),
    (forall j : nat,
        (j < List.length messages)%nat ->
        ~ gate_full (at_attempt j sched messages s)) ->
    Notify_dispatch sched messages i s
    = ((i + Z.of_nat (List.length messages), None),
       after_admissions sched messages s).
Proof.
  induction messages as [| nextMsg rest IH]; intros sched i s Hfree.
  - simpl. now rewrite Z.add_0_r.
  - cbn [Notify_dispatch after_admissions]. rewrite try_dispatch_sends.
    pose proof (Hfree 0%nat ltac:(simpl; lia)) as H0.
    rewrite at_attempt_first in H0. rewrite (gate_not_full _ H0).
    rewrite IH.
    + f_equal. f_equal. simpl List.length. lia.
    + intros j Hj. specialize (Hfree (S j) ltac:(simpl; lia)).
      now rewrite at_attempt_next in Hfree.
Qed.

(** Without other goroutines, what the admissions leave is read off the
    batch. *)
Lemma after_admissions_alone :
  forall (messages : list bytes) (sched : schedule) (s : System),
    Forall (fun acts => acts = []) sched ->
    goroutines (after_admissions sched messages s)
    = goroutines s ++ map (pair inBody) messages
    /\ chan_len (workersLimiter (cl (after_admissions sched messages s)))
       = chan_len (workersLimiter (cl s)) + Z.of_nat (List.length messages)
    /\ workers (cl (after_admissions sched messages s))
       = workers (cl s) + Z.of_nat (List.length messages).
Proof.
  induction messages as [| m rest IH]; intros sched s Hq.
  - simpl. rewrite app_nil_r. repeat split; lia.
  - cbn [after_admissions].
    assert (Hhd : hd [] sched = []) by (destruct Hq; simpl; auto).
    assert (Htl : Forall (fun acts => acts = []) (tl sched))
      by (destruct Hq; simpl; auto).
    rewrite Hhd. cbn [interfere fold_left].
    destruct (IH (tl sched) (dispatched theCaller m s) Htl) as [Hg [Hl Hw]].
    rewrite Hg, Hl, Hw. cbn [dispatched goroutines cl workersLimiter chan_len
                              workers map List.length].
    rewrite <- app_assoc. repeat split; simpl; lia.
Qed.

Lemma at_attempt_alone (k : nat) (sched : schedule) (messages : list bytes)
    (s : System) :
  Forall (fun acts => acts = []) sched ->
  at_attempt k sched messages s
  = after_admissions sched (firstn k messages) s.
Proof.
  intros Hq. unfold at_attempt.
  assert (Hhd : hd [] (skipn k sched) = []).
  { assert (Hs : Forall (fun acts => acts = []) (skipn k sched)).
    { rewrite Forall_forall in *. intros x Hx. apply Hq.
      rewrite <- (firstn_skipn k sched). apply in_or_app. now right. }
    destruct Hs; simpl; auto. }
  now rewrite Hhd.
Qed.

(** C1: on a client that was not stopped, when the first [k] attempts of the
    call on the gate find a free slot and the next one finds the gate full,
    with [k] less than the number of messages, [Notify] returns [k] and a
    [NotifyErr] of kind [TypeWorkersLimitExceeded], and it returns at once:
    the state it leaves is the one in which it found the gate full.  It has
    taken [k] slots and started a worker for each of the first [k] messages
    and for no other, and has called no handler; when no other goroutine
    acts during the call, the goroutines, the gate and the wait group have
    grown by just these [k] workers. *)
Theorem Notify_stops_at_full_gate
    (sched : schedule) (messages : list bytes) (s : System) (k : nat) :
  ctx (cl s) = None ->
  (k < List.length messages)%nat ->
  (forall j : nat,
      (j < k)%nat -> ~ gate_full (at_attempt j sched messages s)) ->
  gate_full (at_attempt k sched messages s) ->
  let r := Notify sched messages s in
  let evs := by_caller (new_events s (snd r)) in
  fst r = (Z.of_nat k, limit_exceeded)
  /\ kind_of (snd (fst r)) = Some TypeWorkersLimitExceeded
  /\ snd r = at_attempt k sched messages s
  /\ spawns evs = firstn k messages
  /\ acquisitions evs = Z.of_nat k
  /\ reports evs = []
  /\ (Forall (fun acts => acts = []) sched ->
      goroutines (snd r)
      = goroutines s ++ map (pair inBody) (firstn k messages)
      /\ chan_len (workersLimiter (cl (snd r)))
         = chan_len (workersLimiter (cl s)) + Z.of_nat k
      /\ workers (cl (snd r)) = workers (cl s) + Z.of_nat k).
Proof.
  intros Hctx Hk Hfree Hfull r evs.
  assert (Hr : r = ((Z.of_nat k, limit_exceeded),
                    at_attempt k sched messages s)).
  { unfold r, Notify. rewrite Hctx.
    now rewrite (Notify_dispatch_stops messages sched 0 s k Hk Hfree Hfull). }
  destruct (Notify_running_spec sched messages s Hctx) as [n [Hb [Hn _]]].
  fold r in Hb, Hn. fold evs in Hb.
  assert (Hnk : n = k).
  { rewrite Hr in Hn. simpl in Hn. lia. }
  subst n.
  destruct (admissions_observed (firstn k messages)) as [A1 [A2 A3]].
  rewrite <- Hb in A1, A2, A3.
  rewrite length_firstn in A1.
  rewrite Hr. cbn [fst snd].
  split; [reflexivity |]. split; [reflexivity |]. split; [reflexivity |].
  split; [exact A2 |]. split; [lia |]. split; [exact A3 |].
  intros Hq. rewrite (at_attempt_alone k sched messages s Hq).
  destruct (after_admissions_alone (firstn k messages) sched s Hq)
    as [Hg [Hl Hw]].
  rewrite length_firstn in Hl, Hw.
  repeat split; [exact Hg | lia | lia].
Qed.

Lemma Notify_stops_at_full_gate_witness :
  let messages := map list_byte_of_string ["msg 0"; "msg 1"; "msg 2"; "msg 3"] in
  let sched :=
    [[]; []; [actBody 0 (mkOracle None None None); actReceive 0]; []] in
  exists c : Client,
    fst (create "http://localhost:8080/notify" (Some (callerParams 0))
           http_DefaultTransport (Some 1024)
           (initial_store (fun _ => mkClientParams 2 Second 1))) = Some c
    /\ ctx (cl (start c)) = None
    /\ (3 < List.length messages)%nat
    /\ (forall j : nat,
           (j < 3)%nat ->
           ~ gate_full (at_attempt j sched messages (start c)))
    /\ gate_full (at_attempt 3 sched messages (start c))
    /\ fst (Notify sched messages (start c)) = (3, limit_exceeded)
    /\ map fst (goroutines (snd (Notify sched messages (start c))))
       = [atDone; inBody; inBody]
    /\ workers (cl (snd (Notify sched messages (start c)))) = 3.
Proof.
  intros messages sched. eexists. split; [reflexivity |].
  match goal with
  | |- ctx (cl ?c) = None /\ _ => set (s := c)
  end.
  assert (Hk : (3 < List.length messages)%nat) by (simpl; lia).
  assert (Hfree : forall j : nat,
             (j < 3)%nat -> ~ gate_full (at_attempt j sched messages s)).
  { intros [| [| [| j]]] Hj; [| | | lia].
    all: unfold gate_full; vm_compute; intros H; apply H; reflexivity. }
  assert (Hfull : gate_full (at_attempt 3 sched messages s)).
  { unfold gate_full. vm_compute. discriminate. }
  split; [reflexivity |]. split; [exact Hk |]. split; [exact Hfree |].
  split; [exact Hfull |].
  split.
  { exact (proj1 (Notify_stops_at_full_gate sched messages s 3
                    eq_refl Hk Hfree Hfull)). }
  split; reflexivity.
Defined.

(** C2: on a client that was not stopped, when every attempt of the call on
    the gate finds a free slot, [Notify] returns the length of the batch and
    a nil error; it has taken one slot and started exactly one worker per
    message, in the order of the batch, without calling the handler, and the
    state it leaves is the one after these admissions; when no other
    goroutine acts during the call, the goroutines, the gate and the wait
    group have grown by one worker per message. *)
Theorem Notify_admits_whole_batch
    (sched : schedule) (messages : list bytes) (s : System) :
  ctx (cl s) = None ->
  (forall j : nat,
      (j < List.length messages)%nat ->
      ~ gate_full (at_attempt j sched messages s)) ->
  let r := Notify sched messages s in
  let evs := by_caller (new_events s (snd r)) in
  fst r = (Z.of_nat (List.length messages), None)
  /\ snd r = after_admissions sched messages s
  /\ spawns evs = messages
  /\ acquisitions evs = Z.of_nat (List.length messages)
  /\ reports evs = []
  /\ (Forall (fun acts => acts = []) sched ->
      goroutines (snd r) = goroutines s ++ map (pair inBody) messages
      /\ chan_len (workersLimiter (cl (snd r)))
         = chan_len (workersLimiter (cl s))
           + Z.of_nat (List.length messages)
      /\ workers (cl (snd r))
         = workers (cl s) + Z.of_nat (List.length messages)).
Proof.
  intros Hctx Hfree r evs.
  assert (Hr : r = ((Z.of_nat (List.length messages), None),
                    after_admissions sched messages s)).
  { unfold r, Notify. rewrite Hctx.
    now rewrite (Notify_dispatch_admits_all messages sched 0 s Hfree). }
  destruct (Notify_running_spec sched messages s Hctx) as [n [Hb [Hn Hc]]].
  fold r in Hb, Hn, Hc. fold evs in Hb.
  assert (Hnk : n = List.length messages).
  { rewrite Hr in Hn. simpl in Hn. lia. }
  subst n. rewrite firstn_all in Hb.
  destruct (admissions_observed messages) as [A1 [A2 A3]].
  rewrite <- Hb in A1, A2, A3.
  rewrite Hr. cbn [fst snd].
  split; [reflexivity |]. split; [reflexivity |]. split; [exact A2 |].
  split; [exact A1 |]. split; [exact A3 |].
  intros Hq. exact (after_admissions_alone messages sched s Hq).
Qed.

Lemma Notify_admits_whole_batch_witness :
  let messages := map list_byte_of_string ["msg 0"; "msg 1"; "msg 2"] in
  let sched :=
    [[]; [];
     [actBody 0 (mkOracle None None (Some (errors_New 5 "timeout")));
      actReceive 0]] in
  exists c : Client,
    fst (create "http://localhost:8080/notify" (Some (callerParams 0))
           http_DefaultTransport (Some 1024)
           (initial_store (fun _ => mkClientParams 2 Second 1))) = Some c
    /\ ctx (cl (start c)) = None
    /\ (forall j : nat,
           (j < List.length messages)%nat ->
           ~ gate_full (at_attempt j sched messages (start c)))
    /\ fst (Notify sched messages (start c)) = (3, None)
    /\ map snd (goroutines (snd (Notify sched messages (start c))))
       = messages
    /\ chan_len (workersLimiter (cl (snd (Notify sched messages (start c)))))
       = 2.
Proof.
  intros messages sched. eexists. split; [reflexivity |].
  match goal with
  | |- ctx (cl ?c) = None /\ _ => set (s := c)
  end.
  assert (Hfree : forall j : nat,
             (j < List.length messages)%nat ->
             ~ gate_full (at_attempt j sched messages s)).
  { intros [| [| [| j]]] Hj; [| | | simpl in Hj; lia].
    all: unfold gate_full; vm_compute; intros H; apply H; reflexivity. }
  split; [reflexivity |]. split; [exact Hfree |].
  split.
  { exact (proj1 (Notify_admits_whole_batch sched messages s eq_refl Hfree)). }
  split; reflexivity.
Defined.

(** ** Reasoning step by step *)

(** A relation between states that every step of a worker keeps, and the
    steps of the other goroutines that are allowed, holds across any allowed
    action and any list of them. *)
Section ActionSteps.

Variable R : System -> System -> Prop.
Variable allowed : action -> Prop.

Hypothesis R_refl : forall s, R s s.
Hypothesis R_trans : forall s1 s2 s3, R s1 s2 -> R s2 s3 -> R s1 s3.
Hypothesis R_body : forall o message s, R s (worker_body o message s).
Hypothesis R_receive : forall s s', deferred_receive s = Some s' -> R s s'.
Hypothesis R_Done : forall s s', deferred_Done s = Some s' -> R s s'.
Hypothesis R_end : forall i s, R s (end_goroutine i s).
Hypothesis R_stage : forall i st s, R s (set_stage i st s).
Hypothesis R_dispatch :
  forall message s s',
    allowed (actAdmit message) ->
    try_dispatch another message s = Some s' -> R s s'.
Hypothesis R_OnError :
  forall h s, allowed (actOnError h) -> R s (with_cl (OnError h) s).
Hypothesis R_Stop : forall s, allowed actStop -> R s (with_cl Stop s).

Lemma resume_steps st o message s s' :
  resume st o message s = Some s' -> R s s'.
Proof.
  destruct st; cbn [resume].
  - unfold worker.
    destruct (deferred_receive (worker_body o message s)) as [s1 |] eqn:Hr;
      [| discriminate].
    intros Hd. apply R_trans with (worker_body o message s); [apply R_body |].
    apply R_trans with s1; [now apply R_receive | now apply R_Done].
  - destruct (deferred_receive s) as [s1 |] eqn:Hr; [| discriminate].
    intros Hd. apply R_trans with s1; [now apply R_receive | now apply R_Done].
  - apply R_Done.
Qed.

Lemma act_steps a s : allowed a -> R s (act a s).
Proof.
  destruct a as [i o | i o | i | i | message | h |]; cbn [act]; intros Hal.
  - destruct (nth_error (goroutines s) i) as [[st message] |];
      [| apply R_refl].
    destruct (resume st o message (end_goroutine i s)) as [s' |] eqn:Hw;
      [| apply R_refl].
    apply R_trans with (end_goroutine i s); [apply R_end |].
    now apply resume_steps in Hw.
  - destruct (nth_error (goroutines s) i) as [[[| |] message] |];
      try apply R_refl.
    apply R_trans with (worker_body o message s);
      [apply R_body | apply R_stage].
  - destruct (nth_error (goroutines s) i) as [[[| |] message] |];
      try apply R_refl.
    destruct (deferred_receive s) as [s' |] eqn:Hr; [| apply R_refl].
    apply R_trans with s'; [now apply R_receive | apply R_stage].
  - destruct (nth_error (goroutines s) i) as [[[| |] message] |];
      try apply R_refl.
    destruct (deferred_Done (end_goroutine i s)) as [s' |] eqn:Hd;
      [| apply R_refl].
    apply R_trans with (end_goroutine i s); [apply R_end | now apply R_Done].
  - destruct (try_dispatch another message s) as [s' |] eqn:Ha;
      [| apply R_refl].
    now apply R_dispatch with message.
  - now apply R_OnError.
  - now apply R_Stop.
Qed.

Lemma interfere_steps acts :
  forall s, Forall allowed acts -> R s (interfere acts s).
Proof.
  induction acts as [| a acts IH]; intros s Hall; [apply R_refl |].
  change (interfere (a :: acts) s) with (interfere acts (act a s)).
  inversion Hall as [| a' acts' Ha Hrest]; subst.
  apply R_trans with (act a s); [now apply act_steps | now apply IH].
Qed.

End ActionSteps.

(** ** The gate and the workers that hold its slots *)

(** The runs "Success" and "Limit exceeded" of notifier_test.go, with no
    worker returning during the call. *)
Example TestNotifier_Notify_Success :
  option_map
    (fun c => fst (Notify [] (repeat (list_byte_of_string "msg") 10) (start c)))
    (fst (New "http://127.0.0.1:8080" None (Some 1024)
            (initial_store (fun _ => DefaultParams_init))))
  = Some (10, None).
Proof. vm_compute. reflexivity. Qed.

Example TestNotifier_Limit_exceeded :
  option_map
    (fun c =>
       fst (Notify [] (repeat (list_byte_of_string "msg") 1000) (start c)))
    (fst (create "http://127.0.0.1:8080" None
            (ptrTransport (mkTransport 0 0 0)) (Some 1024)
            (initial_store (fun _ => DefaultParams_init))))
  = Some (100, limit_exceeded).
Proof. vm_compute. reflexivity. Qed.

(** A batch that fits into the free slots of the gate is admitted whole
    when no other goroutine takes a slot meanwhile. *)
Lemma act_frees a s :
  is_admission a = false ->
  chan_len (workersLimiter (cl (act a s))) <= chan_len (workersLimiter (cl s))
  /\ chan_cap (workersLimiter (cl (act a s))) = chan_cap (workersLimiter (cl s)).
Proof.
  apply (act_steps
           (fun s s' =>
              chan_len (workersLimiter (cl s'))
              <= chan_len (workersLimiter (cl s))
              /\ chan_cap (workersLimiter (cl s'))
                 = chan_cap (workersLimiter (cl s)))
           (fun a => is_admission a = false)).
  - intros; lia.
  - intros; lia.
  - intros o message s0.
    destruct (worker_body_state o message s0) as [-> _]. lia.
  - intros s0 s' H. apply deferred_receive_spec in H.
    destruct H as [_ ->]. simpl. lia.
  - intros s0 s' H. apply deferred_Done_spec in H.
    destruct H as [_ ->]. simpl. lia.
  - intros; simpl; lia.
  - intros i st s0. destruct (set_stage_state i st s0) as [-> _]. lia.
  - intros message s0 s' Ha. discriminate.
  - intros [h |] s0 _; simpl; lia.
  - intros s0 _. simpl. unfold Stop. destruct (ctx (cl s0)); simpl; lia.
Qed.

Lemma interfere_frees acts :
  forall s,
    Forall (fun a => is_admission a = false) acts ->
    chan_len (workersLimiter (cl (interfere acts s)))
    <= chan_len (workersLimiter (cl s))
    /\ chan_cap (workersLimiter (cl (interfere acts s)))
       = chan_cap (workersLimiter (cl s)).
Proof.
  induction acts as [| a acts IH]; intros s Hall; [simpl; lia |].
  change (interfere (a :: acts) s) with (interfere acts (act a s)).
  inversion Hall as [| a' acts' Ha Hrest]; subst.
  destruct (act_frees a s Ha) as [H1 H2].
  destruct (IH (act a s) Hrest) as [H3 H4]. lia.
Qed.

Lemma Notify_dispatch_within_capacity :
  forall (messages : list bytes) (sched : schedule) (i : Z) (s : System),
    no_admission sched ->
    chan_len (workersLimiter (cl s)) + Z.of_nat (List.length messages)
    <= chan_cap (workersLimiter (cl s)) ->
    fst (Notify_dispatch sched messages i s)
    = (i + Z.of_nat (List.length messages), None).
Proof.
  induction messages as [| nextMsg rest IH]; intros sched i s Hsched Hfit.
  - simpl. now rewrite Z.add_0_r.
  - cbn [Notify_dispatch].
    assert (Hhd : Forall (fun a => is_admission a = false) (hd [] sched)).
    { destruct Hsched; simpl; auto. }
    assert (Htl : no_admission (tl sched)).
    { destruct Hsched; simpl; auto. constructor. }
    destruct (interfere_frees (hd [] sched) s Hhd) as [Hlen Hcap].
    set (s1 := interfere (hd [] sched) s) in *.
    simpl List.length in Hfit.
    unfold try_dispatch, try_send.
    destruct (Z.ltb_spec (chan_len (workersLimiter (cl s1)))
                (chan_cap (workersLimiter (cl s1)))) as [Hlt | Hge]; [| lia].
    rewrite IH; auto.
    + f_equal. simpl List.length. lia.
    + simpl. lia.
Qed.

(** X8: a batch that fits into the free slots of the gate is admitted
    whole, [(len(messages), nil)], as long as no other goroutine takes a slot
    during the call; workers that return, [OnError] and [Stop] during the
    call do not matter. *)
Lemma Notify_within_capacity (sched : schedule) (messages : list bytes)
    (s : System) :
  ctx (cl s) = None ->
  no_admission sched ->
  chan_len (workersLimiter (cl s)) + Z.of_nat (List.length messages)
  <= chan_cap (workersLimiter (cl s)) ->
  fst (Notify sched messages s) = (Z.of_nat (List.length messages), None).
Proof.
  intros Hctx Hsched Hfit. unfold Notify. rewrite Hctx.
  now rewrite Notify_dispatch_within_capacity.
Qed.

(** Taking a goroutine out of the list, or putting it at another stage. *)
Lemma slots_without (l : list (stage * bytes)) (i : nat) (g : stage * bytes) :
  nth_error l i = Some g ->
  Z.of_nat (List.length (firstn i l ++ skipn (S i) l))
  = Z.of_nat (List.length l) - 1
  /\ Z.of_nat (List.length (filter holds_slot (firstn i l ++ skipn (S i) l)))
     = Z.of_nat (List.length (filter holds_slot l))
       - (if holds_slot g then 1 else 0).
Proof.
  intros H. assert (E := nth_error_split_at l i g H).
  set (a := firstn i l) in *. set (b := skipn (S i) l) in *.
  clearbody a b. subst l.
  rewrite !filter_app, !length_app. cbn [filter List.length].
  destruct (holds_slot g); rewrite ?length_app; cbn [List.length]; lia.
Qed.

Lemma slots_with (l : list (stage * bytes)) (i : nat) (g g' : stage * bytes) :
  nth_error l i = Some g ->
  Z.of_nat (List.length (firstn i l ++ g' :: skipn (S i) l))
  = Z.of_nat (List.length l)
  /\ Z.of_nat
       (List.length (filter holds_slot (firstn i l ++ g' :: skipn (S i) l)))
     = Z.of_nat (List.length (filter holds_slot l))
       - (if holds_slot g then 1 else 0) + (if holds_slot g' then 1 else 0).
Proof.
  intros H. assert (E := nth_error_split_at l i g H).
  set (a := firstn i l) in *. set (b := skipn (S i) l) in *.
  clearbody a b. subst l.
  rewrite !filter_app, !length_app. cbn [filter List.length].
  destruct (holds_slot g), (holds_slot g'); cbn [List.length]; lia.
Qed.


Lemma end_goroutine_counts i g s :
  nth_error (goroutines s) i = Some g ->
  outstanding (end_goroutine i s) = outstanding s - 1
  /\ holders (end_goroutine i s)
     = holders s - (if holds_slot g then 1 else 0).
Proof.
  intros H. unfold outstanding, holders, end_goroutine. cbn [goroutines].
  exact (slots_without (goroutines s) i g H).
Qed.

Lemma set_stage_counts i st st' message s :
  nth_error (goroutines s) i = Some (st, message) ->
  goroutines (set_stage i st' s)
  = firstn i (goroutines s) ++ (st', message) :: skipn (S i) (goroutines s)
  /\ outstanding (set_stage i st' s) = outstanding s
  /\ holders (set_stage i st' s)
     = holders s - (if holds_slot (st, message) then 1 else 0)
       + (if holds_slot (st', message) then 1 else 0).
Proof.
  intros H. unfold outstanding, holders, set_stage. rewrite H.
  cbn [goroutines]. split; [reflexivity |].
  exact (slots_with (goroutines s) i (st, message) (st', message) H).
Qed.

Lemma deferred_receive_runs s :
  0 < chan_len (workersLimiter (cl s)) ->
  deferred_receive s
  = Some (mkSystem
            (set_workersLimiter
               (mkChan (chan_len (workersLimiter (cl s)) - 1)
                  (chan_cap (workersLimiter (cl s)))) (cl s))
            (goroutines s) (trace s ++ [(aWorker, evRelease)])).
Proof.
  intros H. unfold deferred_receive, receive.
  apply Z.ltb_lt in H. rewrite H. reflexivity.
Qed.

Lemma deferred_Done_runs s :
  0 < workers (cl s) ->
  deferred_Done s
  = Some (mkSystem (set_workers (workers (cl s) - 1) (cl s))
            (goroutines s) (trace s ++ [(aWorker, evDone)])).
Proof.
  intros H. unfold deferred_Done, wg_Done.
  apply Z.ltb_lt in H. rewrite H. reflexivity.
Qed.

(** The three steps of a worker, each in a state where it is enabled. *)
Lemma act_Body_spec i o message s :
  nth_error (goroutines s) i = Some (inBody, message) ->
  cl (act (actBody i o) s) = cl s
  /\ goroutines (act (actBody i o) s)
     = firstn i (goroutines s)
       ++ (atReceive, message) :: skipn (S i) (goroutines s).
Proof.
  intros H. cbn [act]. rewrite H.
  destruct (worker_body_state o message s) as [Hc Hg].
  destruct (set_stage_state i atReceive (worker_body o message s)) as [-> _].
  split; [exact Hc |].
  rewrite <- Hg in H.
  destruct (set_stage_counts i inBody atReceive message _ H) as [-> _].
  now rewrite Hg.
Qed.

Lemma act_Receive_spec i message s :
  nth_error (goroutines s) i = Some (atReceive, message) ->
  0 < chan_len (workersLimiter (cl s)) ->
  chan_len (workersLimiter (cl (act (actReceive i) s)))
  = chan_len (workersLimiter (cl s)) - 1
  /\ chan_cap (workersLimiter (cl (act (actReceive i) s)))
     = chan_cap (workersLimiter (cl s))
  /\ workers (cl (act (actReceive i) s)) = workers (cl s)
  /\ goroutines (act (actReceive i) s)
     = firstn i (goroutines s)
       ++ (atDone, message) :: skipn (S i) (goroutines s).
Proof.
  intros H Hpos. cbn [act]. rewrite H, (deferred_receive_runs s Hpos).
  match goal with
  | |- context [set_stage i atDone ?s1] =>
      destruct (set_stage_state i atDone s1) as [-> _];
      destruct (set_stage_counts i atReceive atDone message s1 H) as [-> _]
  end.
  repeat split.
Qed.

Lemma act_Done_spec i message s :
  nth_error (goroutines s) i = Some (atDone, message) ->
  0 < workers (cl s) ->
  workers (cl (act (actDone i) s)) = workers (cl s) - 1
  /\ workersLimiter (cl (act (actDone i) s)) = workersLimiter (cl s)
  /\ goroutines (act (actDone i) s)
     = firstn i (goroutines s) ++ skipn (S i) (goroutines s).
Proof.
  intros H Hpos. cbn [act]. rewrite H.
  rewrite (deferred_Done_runs (end_goroutine i s) Hpos).
  repeat split.
Qed.

(** The invariant of a gate of capacity [C], kept by every step. *)
Section GateInvariant.

Variable C : Z.

Lemma holder_counted i g s :
  nth_error (goroutines s) i = Some g ->
  0 < outstanding s
  /\ (holds_slot g = true -> 0 < holders s).
Proof.
  intros H. destruct (slots_without (goroutines s) i g H) as [H1 H2].
  unfold outstanding, holders. split; [lia |].
  intros Hh. rewrite Hh in H2. lia.
Qed.

Lemma resume_returns o i st message s :
  gate_inv C s ->
  nth_error (goroutines s) i = Some (st, message) ->
  exists s',
    resume st o message (end_goroutine i s) = Some s'
    /\ gate_inv C s'
    /\ chan_len (workersLimiter (cl s'))
       = chan_len (workersLimiter (cl s))
         - (if holds_slot (st, message) then 1 else 0)
    /\ workers (cl s') = workers (cl s) - 1
    /\ outstanding s' = outstanding s - 1.
Proof.
  intros [Hcap [Hlen [Hwg Hle]]] Hnth.
  destruct (end_goroutine_counts i _ s Hnth) as [Hout Hhold].
  destruct (holder_counted i _ s Hnth) as [Hpos Hhpos].
  remember (end_goroutine i s) as s0 eqn:Es0 in *.
  assert (Hc0 : cl s0 = cl s) by now subst s0.
  clear Es0.
  destruct st; cbn [resume].
  - specialize (Hhpos eq_refl). cbn [holds_slot fst] in *.
    destruct (worker_body_state o message s0) as [Hc Hg].
    unfold worker.
    rewrite deferred_receive_runs by (rewrite ?Hc, ?Hc0; lia).
    rewrite deferred_Done_runs by (cbn; rewrite ?Hc, ?Hc0; lia).
    eexists. split; [reflexivity |].
    unfold gate_inv, outstanding, holders in *. cbn. rewrite ?Hc, ?Hg, ?Hc0.
    repeat split; lia.
  - specialize (Hhpos eq_refl). cbn [holds_slot fst] in *.
    rewrite deferred_receive_runs by (rewrite ?Hc0; lia).
    rewrite deferred_Done_runs by (cbn; rewrite ?Hc0; lia).
    eexists. split; [reflexivity |].
    unfold gate_inv, outstanding, holders in *. cbn. rewrite ?Hc0.
    repeat split; lia.
  - cbn [holds_slot fst] in *.
    rewrite deferred_Done_runs by (rewrite ?Hc0; lia).
    eexists. split; [reflexivity |].
    unfold gate_inv, outstanding, holders in *. cbn. rewrite ?Hc0.
    repeat split; lia.
Qed.

Lemma try_dispatch_inv who message s s' :
  gate_inv C s -> try_dispatch who message s = Some s' -> gate_inv C s'.
Proof.
  intros [Hcap [Hlen [Hwg Hle]]]. unfold try_dispatch, try_send.
  destruct (chan_len _ <? chan_cap _) eqn:E; [| discriminate].
  apply Z.ltb_lt in E. intros H. injection H as <-.
  unfold gate_inv, outstanding, holders in *. simpl.
  rewrite filter_app, !length_app. simpl. repeat split; lia.
Qed.

Lemma act_inv a s : gate_inv C s -> gate_inv C (act a s).
Proof.
  intros Hinv.
  destruct a as [i o | i o | i | i | message | h |].
  - cbn [act].
    destruct (nth_error (goroutines s) i) as [[st message] |] eqn:Hnth; auto.
    destruct (resume_returns o i st message s Hinv Hnth) as [s' [-> [H _]]].
    exact H.
  - destruct (nth_error (goroutines s) i) as [[[| |] message] |] eqn:Hnth;
      try (cbn [act]; rewrite Hnth; exact Hinv).
    destruct (act_Body_spec i o message s Hnth) as [Hc Hg].
    destruct (slots_with (goroutines s) i _ (atReceive, message) Hnth)
      as [H1 H2].
    destruct Hinv as [Hcap [Hlen [Hwg Hle]]].
    unfold gate_inv, outstanding, holders in *. rewrite Hc, Hg.
    cbn [holds_slot fst] in H2. repeat split; lia.
  - destruct (nth_error (goroutines s) i) as [[[| |] message] |] eqn:Hnth;
      try (cbn [act]; rewrite Hnth; exact Hinv).
    destruct (holder_counted i _ s Hnth) as [_ Hpos].
    specialize (Hpos eq_refl).
    destruct Hinv as [Hcap [Hlen [Hwg Hle]]].
    destruct (act_Receive_spec i message s Hnth ltac:(lia))
      as [Hl [Hc [Hw Hg]]].
    destruct (slots_with (goroutines s) i _ (atDone, message) Hnth)
      as [H1 H2].
    unfold gate_inv, outstanding, holders in *. rewrite Hl, Hc, Hw, Hg.
    cbn [holds_slot fst] in H2. repeat split; lia.
  - destruct (nth_error (goroutines s) i) as [[[| |] message] |] eqn:Hnth;
      try (cbn [act]; rewrite Hnth; exact Hinv).
    destruct (holder_counted i _ s Hnth) as [Hpos _].
    destruct Hinv as [Hcap [Hlen [Hwg Hle]]].
    destruct (act_Done_spec i message s Hnth ltac:(lia)) as [Hw [Hl Hg]].
    destruct (slots_without (goroutines s) i _ Hnth) as [H1 H2].
    unfold gate_inv, outstanding, holders in *. rewrite Hw, Hl, Hg.
    cbn [holds_slot fst] in H2. repeat split; lia.
  - cbn [act].
    destruct (try_dispatch another message s) as [s' |] eqn:Ha; auto.
    eapply try_dispatch_inv; eauto.
  - destruct h; exact Hinv.
  - cbn [act]. unfold with_cl, Stop. destruct (ctx (cl s)); exact Hinv.
Qed.

Lemma interfere_inv acts :
  forall s, gate_inv C s -> gate_inv C (interfere acts s).
Proof.
  induction acts as [| a acts IH]; intros s H; [exact H |].
  change (interfere (a :: acts) s) with (interfere acts (act a s)).
  apply IH. now apply act_inv.
Qed.

Lemma Notify_inv sched messages s :
  gate_inv C s -> gate_inv C (snd (Notify sched messages s)).
Proof.
  unfold Notify. destruct (ctx (cl s)) as [err |].
  - generalize 0. revert sched s.
    induction messages as [| msg rest IH]; intros sched s i H; [exact H |].
    cbn [Notify_canceled]. apply IH.
    apply (interfere_inv (hd [] sched)) in H. exact H.
  - generalize 0. revert sched s.
    induction messages as [| msg rest IH]; intros sched s i H; [exact H |].
    cbn [Notify_dispatch].
    apply (interfere_inv (hd [] sched)) in H.
    destruct (try_dispatch theCaller msg _) as [s' |] eqn:Ha; [| exact H].
    apply IH. eapply try_dispatch_inv; eauto.
Qed.

Lemma run_inv history : forall s, gate_inv C s -> gate_inv C (run history s).
Proof.
  induction history as [| c history IH]; intros s H; [exact H |].
  change (run (c :: history) s) with (run history (exec c s)).
  apply IH. destruct c as [sched messages | a]; simpl.
  - now apply Notify_inv.
  - now apply act_inv.
Qed.

End GateInvariant.

Lemma start_inv (c : Client) :
  chan_len (workersLimiter c) = 0 ->
  workers c = 0 ->
  0 <= chan_cap (workersLimiter c) ->
  gate_inv (chan_cap (workersLimiter c)) (start c).
Proof.
  intros Hlen Hwg Hcap. unfold gate_inv, outstanding, holders, start. simpl.
  repeat split; auto.
Qed.

Lemma create_fresh url params transport Getrlimit st c :
  fst (create url params transport Getrlimit st) = Some c ->
  chan_len (workersLimiter c) = 0 /\ workers c = 0 /\ ctx c = None
  /\ notifyError c = noop.
Proof.
  unfold create, make_chan.
  destruct params as [p |]; cbn [fst];
    match goal with
    | |- context [if ?b then _ else _] => destruct b eqn:E
    end; try discriminate;
    intros H; injection H as <-; cbn; repeat split.
Qed.




(** ** The capacity of the gate of a client made with nil parameters *)

Lemma uint64_of_positive_int h : is_int h -> 0 < h -> uint64 h = h.
Proof.
  unfold is_int, uint64. intros H Hpos. apply Z.mod_small. lia.
Qed.

Lemma calculateOptimalWorkersLimit_first_hint st Cur transport :
  Forall is_int (hints transport) ->
  let L := Z.min (MaxConcurrentWorkers (st DefaultParams)) Cur in
  calculateOptimalWorkersLimit st (Some Cur) transport
  = match find (fun h => (0 <? h) && (h <? L)) (hints transport) with
    | Some h => h
    | None => L
    end.
Proof.
  intros Hint L. unfold calculateOptimalWorkersLimit.
  assert (HL : (if MaxConcurrentWorkers (st DefaultParams) >? Cur
                then Cur else MaxConcurrentWorkers (st DefaultParams)) = L).
  { unfold L. destruct (Z.gtb_spec (MaxConcurrentWorkers (st DefaultParams)) Cur); lia. }
  rewrite HL. destruct transport as [t |]; [| reflexivity].
  simpl in Hint. inversion Hint as [| a l Ha Hl]; subst.
  inversion Hl as [| b l' Hb Hl']; subst.
  inversion Hl' as [| c l'' Hc _]; subst.
  cbn [hints find].
  assert (Hstep : forall h, is_int h ->
             ((h >? 0) && (uint64 h <? L) = (0 <? h) && (h <? L))
             /\ ((0 <? h) && (h <? L) = true -> uint64 h = h)).
  { intros h Hh. rewrite Z.gtb_ltb. destruct (Z.ltb_spec 0 h) as [Hp | Hp].
    - rewrite (uint64_of_positive_int h Hh Hp). split; auto.
    - split; [reflexivity | discriminate]. }
  destruct (Hstep _ Ha) as [-> Ea]. destruct (Hstep _ Hb) as [-> Eb].
  destruct (Hstep _ Hc) as [-> Ec].
  destruct ((0 <? MaxConnsPerHost t) && (MaxConnsPerHost t <? L)); [now apply Ea |].
  destruct ((0 <? MaxIdleConnsPerHost t) && (MaxIdleConnsPerHost t <? L));
    [now apply Eb |].
  destruct ((0 <? MaxIdleConns t) && (MaxIdleConns t <? L)); [now apply Ec |].
  reflexivity.
Qed.

(** What [create] returns, by what it has left in the struct it used. *)
Lemma create_made url params transport Getrlimit st :
  let r := create url params transport Getrlimit st in
  let p := match params with Some p => p | None => DefaultParams end in
  fst r
  = (if MaxConcurrentWorkers (snd r p) <? 2 ^ 63
     then Some (mkClient url noop transport None 0
                  (mkChan 0 (MaxConcurrentWorkers (snd r p)))
                  (mkLimiter (MaxRequestRate (snd r p))
                     (MaxRequestsPerRate (snd r p))))
     else None).
Proof.
  unfold create, make_chan. destruct params as [p |]; cbn [fst snd];
    match goal with
    | |- context [if ?b then Some (mkChan _ _) else None] => destruct b
    end; reflexivity.
Qed.

Lemma made_capacity_create url params transport Getrlimit st :
  let r := create url params transport Getrlimit st in
  let p := match params with Some p => p | None => DefaultParams end in
  made_capacity r = made_of (MaxConcurrentWorkers (snd r p)).
Proof.
  intros r p. unfold made_capacity, made_of, make_chan.
  unfold r at 1. rewrite create_made. fold r p.
  destruct (MaxConcurrentWorkers (snd r p) <? 2 ^ 63); reflexivity.
Qed.

Lemma made_of_small (n : Z) : n < 2 ^ 63 -> made_of n = Some n.
Proof.
  intros H. unfold made_of, make_chan. apply Z.ltb_lt in H. now rewrite H.
Qed.

Lemma made_of_large (n : Z) : 2 ^ 63 <= n -> made_of n = None.
Proof.
  intros H. unfold made_of, make_chan. apply Z.ltb_ge in H. now rewrite H.
Qed.

Lemma create_nil_store url transport Getrlimit st :
  let computed := calculateOptimalWorkersLimit st Getrlimit transport in
  forall p,
    snd (create url None transport Getrlimit st) p
    = assign_MaxConcurrentWorkers st DefaultParams
        (if computed =? 0 then 1 else computed) p.
Proof.
  intros computed p. unfold create. fold computed. cbn.
  destruct (computed =? 0); destruct p; reflexivity.
Qed.

Lemma create_nil_written url transport Getrlimit st :
  let computed := calculateOptimalWorkersLimit st Getrlimit transport in
  written (create url None transport Getrlimit st)
  = (if computed =? 0 then 1 else computed).
Proof.
  intros computed. unfold written. rewrite create_nil_store. reflexivity.
Qed.

Lemma made_capacity_create_nil url transport Getrlimit st :
  made_capacity (create url None transport Getrlimit st)
  = made_of (written (create url None transport Getrlimit st)).
Proof.
  exact (made_capacity_create url None transport Getrlimit st).
Qed.

(** C5, as amended: a client made with nil parameters, while [DefaultParams]
    still holds its initial 100 and the soft limit [Cur] on open files is
    read and is not zero, gets a gate whose capacity is the first of the
    hints of the transport, in the order [MaxConnsPerHost],
    [MaxIdleConnsPerHost], [MaxIdleConns], that is positive and below
    [min 100 Cur], and [min 100 Cur] when there is none (or the transport is
    not an [http.Transport]). *)
Theorem create_nil_capacity_first_hint
    (url : string) (transport : RoundTripper) (Cur : Z)
    (callers : nat -> ClientParams) :
  0 < Cur ->
  Forall is_int (hints transport) ->
  let L := Z.min 100 Cur in
  made_capacity (create url None transport (Some Cur) (initial_store callers))
  = Some (match find (fun h => (0 <? h) && (h <? L)) (hints transport) with
          | Some h => h
          | None => L
          end).
Proof.
  intros Hcur Hint L.
  pose proof (calculateOptimalWorkersLimit_first_hint
                (initial_store callers) Cur transport Hint) as Hcalc.
  cbn zeta in Hcalc.
  change (MaxConcurrentWorkers (initial_store callers DefaultParams)) with 100
    in Hcalc.
  fold L in Hcalc.
  assert (Hpos : 0 < calculateOptimalWorkersLimit (initial_store callers)
                       (Some Cur) transport <= 100).
  { rewrite Hcalc.
    destruct (find _ (hints transport)) as [h |] eqn:Hf; [| unfold L; lia].
    apply find_some in Hf. destruct Hf as [_ Hf].
    apply andb_prop in Hf. destruct Hf as [Hf Hl].
    apply Z.ltb_lt in Hf. apply Z.ltb_lt in Hl. unfold L in Hl. lia. }
  rewrite made_capacity_create_nil, create_nil_written.
  destruct (calculateOptimalWorkersLimit _ _ _ =? 0) eqn:E.
  - apply Z.eqb_eq in E. lia.
  - rewrite made_of_small by lia. now rewrite Hcalc.
Qed.

Lemma create_nil_capacity_first_hint_witness :
  0 < 1024
  /\ Forall is_int (hints (ptrTransport (mkTransport 50 30 0)))
  /\ made_capacity (create "http://localhost:8080/notify" None
                      (ptrTransport (mkTransport 50 30 0)) (Some 1024)
                      (initial_store (fun _ => DefaultParams_init)))
     = Some 50.
Proof.
  split; [reflexivity |].
  assert (H : Forall is_int (hints (ptrTransport (mkTransport 50 30 0)))).
  { repeat constructor; unfold is_int; cbv; intuition discriminate. }
  split; [exact H |].
  exact (create_nil_capacity_first_hint _ _ 1024 _ eq_refl H).
Defined.

(** C5, the claim as stated fails: with a per-host connection ceiling of 50
    and a per-host idle ceiling of 30 the capacity is 50, the first hint
    below the limit, and not 30, the smallest one. *)
Lemma create_nil_capacity_not_smallest_hint :
  made_capacity (create "http://localhost:8080/notify" None
                   (ptrTransport (mkTransport 50 30 0)) (Some 1024)
                   (initial_store (fun _ => DefaultParams_init)))
  <> Some (capacity_by_smallest_hint 1024 (ptrTransport (mkTransport 50 30 0))).
Proof.
  vm_compute. discriminate.
Qed.

(** The runs of TestNotifier_DifferentLimits, one after the other on the
    shared [DefaultParams] (the soft limit is taken to be 1024). *)
Example TestNotifier_DifferentLimits :
  let st0 := initial_store (fun _ => mkClientParams 0 0 0) in
  let r1 := create "" None (ptrTransport (mkTransport 0 0 0)) (Some 1024) st0 in
  let r2 := create "" None (ptrTransport (mkTransport 0 0 50)) (Some 1024)
              (snd r1) in
  let r3 := create "" None (ptrTransport (mkTransport 0 40 100)) (Some 1024)
              (snd r2) in
  let r4 := create "" None (ptrTransport (mkTransport 30 0 100)) (Some 1024)
              (snd r3) in
  let r5 := New "" (Some (callerParams 0)) (Some 1024) (snd r4) in
  map made_capacity [r1; r2; r3; r4; r5]
  = [Some 100; Some 50; Some 40; Some 30; Some 1].
Proof. reflexivity. Qed.

Lemma create_nil_without_hints (url : string) (st : store) :
  MaxConcurrentWorkers (st DefaultParams) <> 0 ->
  written (create url None otherRoundTripper None st)
  = MaxConcurrentWorkers (st DefaultParams).
Proof.
  intros Hnz. rewrite create_nil_written.
  unfold calculateOptimalWorkersLimit.
  destruct (MaxConcurrentWorkers (st DefaultParams) =? 0) eqn:E;
    [| reflexivity].
  apply Z.eqb_eq in E. contradiction.
Qed.

(** C9: [create] with nil parameters writes the capacity it computes into the
    struct behind [DefaultParams] and leaves the rest of the memory as it
    was, so the next computation of the limit starts from that value: a later
    client made with nil parameters and a transport without hints gets the
    capacity of the earlier one, and after a first client limited to 30 by
    its transport, [New] with nil parameters gives 30 where it gives 100 on
    the initial [DefaultParams].  The value is written before [make] is
    called: the gate of the client has the written value as its capacity, and
    there is no client exactly when that value does not fit [int]. *)
Theorem create_nil_writes_DefaultParams
    (url : string) (transport : RoundTripper) (Getrlimit : option Z)
    (st : store) :
  let r := create url None transport Getrlimit st in
  let computed := calculateOptimalWorkersLimit st Getrlimit transport in
  MaxConcurrentWorkers (snd r DefaultParams)
  = (if computed =? 0 then 1 else computed)
  /\ (made_capacity r
      = (if MaxConcurrentWorkers (snd r DefaultParams) <? 2 ^ 63
         then Some (MaxConcurrentWorkers (snd r DefaultParams))
         else None)
      /\ forall c : Client,
          fst r = Some c ->
          MaxConcurrentWorkers (snd r DefaultParams) = capacity c)
  /\ MaxRequestRate (snd r DefaultParams) = MaxRequestRate (st DefaultParams)
  /\ MaxRequestsPerRate (snd r DefaultParams)
     = MaxRequestsPerRate (st DefaultParams)
  /\ (forall a : nat, snd r (callerParams a) = st (callerParams a))
  /\ (forall Getrlimit' : option Z,
         calculateOptimalWorkersLimit (snd r) Getrlimit' otherRoundTripper
         = match Getrlimit' with
           | Some Cur => Z.min (MaxConcurrentWorkers (snd r DefaultParams)) Cur
           | None => MaxConcurrentWorkers (snd r DefaultParams)
           end)
  /\ (forall url' : string,
         made_capacity (create url' None otherRoundTripper None (snd r))
         = made_capacity r)
  /\ (let st0 := initial_store (fun _ => DefaultParams_init) in
      let first := create url None (ptrTransport (mkTransport 30 0 0))
                     (Some 1024) st0 in
      made_capacity (New url None (Some 1024) st0) = Some 100
      /\ MaxConcurrentWorkers (snd first DefaultParams) = 30
      /\ made_capacity (New url None (Some 1024) (snd first)) = Some 30).
Proof.
  intros r computed.
  assert (Hw : MaxConcurrentWorkers (snd r DefaultParams)
               = (if computed =? 0 then 1 else computed)).
  { exact (create_nil_written url transport Getrlimit st). }
  assert (Hm : made_capacity r
               = made_of (MaxConcurrentWorkers (snd r DefaultParams))).
  { exact (made_capacity_create_nil url transport Getrlimit st). }
  assert (Hnz : MaxConcurrentWorkers (snd r DefaultParams) <> 0).
  { rewrite Hw. destruct (computed =? 0) eqn:E; [lia |]. now apply Z.eqb_neq. }
  split; [exact Hw |].
  split.
  { split.
    - rewrite Hm. unfold made_of, make_chan.
      destruct (MaxConcurrentWorkers (snd r DefaultParams) <? 2 ^ 63);
        reflexivity.
    - intros c Hc. unfold made_capacity in Hm. rewrite Hc in Hm.
      unfold made_of, make_chan in Hm.
      destruct (MaxConcurrentWorkers (snd r DefaultParams) <? 2 ^ 63);
        [| discriminate].
      cbn [option_map chan_cap] in Hm. injection Hm as Hm.
      symmetry. exact Hm. }
  assert (Hst : forall p, snd r p
                = assign_MaxConcurrentWorkers st DefaultParams
                    (if computed =? 0 then 1 else computed) p).
  { exact (create_nil_store url transport Getrlimit st). }
  split; [now rewrite Hst |].
  split; [now rewrite Hst |].
  split; [intros a; now rewrite Hst |].
  split.
  { intros Getrlimit'. unfold calculateOptimalWorkersLimit.
    destruct Getrlimit' as [Cur |]; [| reflexivity].
    destruct (Z.gtb_spec (MaxConcurrentWorkers (snd r DefaultParams)) Cur);
      lia. }
  split.
  { intros url'. rewrite made_capacity_create_nil, Hm.
    now rewrite (create_nil_without_hints url' (snd r) Hnz). }
  cbv zeta. repeat split.
Qed.

(** * Further properties *)

(** ** The limit computed for nil parameters *)

Lemma uint64_nonneg x : 0 <= uint64 x.
Proof.
  unfold uint64. apply Z.mod_pos_bound. reflexivity.
Qed.

Lemma calculateOptimalWorkersLimit_cases st Getrlimit transport :
  let D := MaxConcurrentWorkers (st DefaultParams) in
  let limit := match Getrlimit with
               | Some Cur => Z.min D Cur
               | None => D
               end in
  calculateOptimalWorkersLimit st Getrlimit transport = limit
  \/ (0 <= calculateOptimalWorkersLimit st Getrlimit transport < limit).
Proof.
  intros D limit. unfold calculateOptimalWorkersLimit. fold D.
  assert (HL : match Getrlimit with
               | Some Cur => if D >? Cur then Cur else D
               | None => D
               end = limit).
  { unfold limit. destruct Getrlimit as [Cur |]; [| reflexivity].
    destruct (Z.gtb_spec D Cur); lia. }
  rewrite HL. destruct transport as [t |]; [| now left].
  assert (Hhint : forall h rest,
             rest = limit \/ 0 <= rest < limit ->
             (if (h >? 0) && (uint64 h <? limit) then uint64 h else rest) = limit
             \/ 0 <= (if (h >? 0) && (uint64 h <? limit) then uint64 h else rest)
                < limit).
  { intros h rest Hrest.
    destruct (h >? 0); simpl; [| exact Hrest].
    destruct (Z.ltb_spec (uint64 h) limit) as [Hlt | Hge]; [| exact Hrest].
    right. split; [apply uint64_nonneg | exact Hlt]. }
  apply Hhint. apply Hhint. apply Hhint. now left.
Qed.

(** X1: the limit computed for nil parameters never exceeds
    [DefaultParams.MaxConcurrentWorkers], nor the soft limit on open files
    when it can be read; without a usable hint (a transport that is not an
    [http.Transport]) it is exactly that bound; and a failing [Getrlimit]
    behaves like a soft limit that does not bind. *)
Theorem calculateOptimalWorkersLimit_bounds (st : store)
    (transport : RoundTripper) :
  let D := MaxConcurrentWorkers (st DefaultParams) in
  calculateOptimalWorkersLimit st None transport <= D
  /\ (forall Cur : Z,
         calculateOptimalWorkersLimit st (Some Cur) transport <= Z.min D Cur)
  /\ calculateOptimalWorkersLimit st None otherRoundTripper = D
  /\ (forall Cur : Z,
         calculateOptimalWorkersLimit st (Some Cur) otherRoundTripper
         = Z.min D Cur)
  /\ (forall Cur : Z,
         D <= Cur ->
         calculateOptimalWorkersLimit st (Some Cur) transport
         = calculateOptimalWorkersLimit st None transport).
Proof.
  intros D.
  split.
  { destruct (calculateOptimalWorkersLimit_cases st None transport) as [H | H];
      cbn zeta in H; fold D in H; lia. }
  split.
  { intros Cur.
    destruct (calculateOptimalWorkersLimit_cases st (Some Cur) transport)
      as [H | H]; cbn zeta in H; fold D in H; lia. }
  split; [reflexivity |].
  split.
  { intros Cur. unfold calculateOptimalWorkersLimit. fold D.
    destruct (Z.gtb_spec D Cur); lia. }
  intros Cur Hle. unfold calculateOptimalWorkersLimit. fold D.
  destruct (Z.gtb_spec D Cur) as [Hgt | _]; [lia | reflexivity].
Qed.

(** ** Construction *)

Lemma create_explicit url p transport Getrlimit st :
  let M := MaxConcurrentWorkers (st p) in
  let r := create url (Some p) transport Getrlimit st in
  MaxConcurrentWorkers (snd r p) = (if M =? 0 then 1 else M)
  /\ (forall q, snd r q
                = if M =? 0 then assign_MaxConcurrentWorkers st p 1 q else st q).
Proof.
  intros M r. unfold r, create. fold M. cbn [snd].
  destruct (M =? 0) eqn:E.
  - unfold assign_MaxConcurrentWorkers.
    assert (Hpp : ptrClientParams_eqb p p = true).
    { destruct p; simpl; auto. apply Nat.eqb_refl. }
    rewrite Hpp. cbn. split; reflexivity.
  - split; [| reflexivity]. fold M. reflexivity.
Qed.

Lemma ptrClientParams_eqb_neq p q : q <> p -> ptrClientParams_eqb q p = false.
Proof.
  intros Hne. destruct q as [| a], p as [| b]; simpl; auto.
  - congruence.
  - apply Nat.eqb_neq. congruence.
Qed.

(** The client that [create] returns when [make] does not panic. *)
Lemma create_client url params transport Getrlimit st :
  let r := create url params transport Getrlimit st in
  let p := match params with Some p => p | None => DefaultParams end in
  (forall c : Client,
      fst r = Some c ->
      MaxConcurrentWorkers (snd r p) < 2 ^ 63
      /\ capacity c = MaxConcurrentWorkers (snd r p))
  /\ (MaxConcurrentWorkers (snd r p) < 2 ^ 63 ->
      exists c : Client,
        fst r = Some c /\ capacity c = MaxConcurrentWorkers (snd r p))
  /\ (2 ^ 63 <= MaxConcurrentWorkers (snd r p) -> fst r = None).
Proof.
  intros r p.
  pose proof (create_made url params transport Getrlimit st) as Hm.
  cbv zeta in Hm. fold r p in Hm.
  destruct (Z.ltb_spec (MaxConcurrentWorkers (snd r p)) (2 ^ 63)) as [Hlt | Hge].
  - split; [| split].
    + intros c Hc. rewrite Hm in Hc. injection Hc as <-.
      split; [exact Hlt | reflexivity].
    + intros _. eexists. split; [exact Hm | reflexivity].
    + intros H. lia.
  - split; [| split].
    + intros c Hc. rewrite Hm in Hc. discriminate.
    + intros H. lia.
    + intros _. exact Hm.
Qed.

Lemma create_written_positive url params transport Getrlimit st :
  (forall p : ptrClientParams, is_uint64 (MaxConcurrentWorkers (st p))) ->
  (forall Cur : Z, Getrlimit = Some Cur -> is_uint64 Cur) ->
  let r := create url params transport Getrlimit st in
  let p := match params with Some p => p | None => DefaultParams end in
  1 <= MaxConcurrentWorkers (snd r p).
Proof.
  intros Hst Hcur r p. unfold r, p. destruct params as [p0 |].
  - destruct (create_explicit url p0 transport Getrlimit st) as [-> _].
    pose proof (Hst p0) as [H _].
    destruct (Z.eqb_spec (MaxConcurrentWorkers (st p0)) 0); lia.
  - pose proof (create_nil_written url transport Getrlimit st) as Hw.
    unfold written in Hw. cbv zeta in Hw. rewrite Hw.
    pose proof (Hst DefaultParams) as [HD _].
    destruct (calculateOptimalWorkersLimit_cases st Getrlimit transport)
      as [H | H]; cbn zeta in H.
    + rewrite H. destruct Getrlimit as [Cur |].
      * pose proof (Hcur Cur eq_refl) as [HC _].
        destruct (Z.eqb_spec (Z.min (MaxConcurrentWorkers (st DefaultParams)) Cur) 0);
          lia.
      * destruct (Z.eqb_spec (MaxConcurrentWorkers (st DefaultParams)) 0); lia.
    + destruct (Z.eqb_spec
                  (calculateOptimalWorkersLimit st Getrlimit transport) 0);
        lia.
Qed.

(** X2: the value that [create] passes to [make] is at least 1, whatever the
    parameters (nil or not), the transport and the soft limit are, as long
    as the [uint64] values are what they say.  When it does not fit [int],
    [make] panics and there is no client.  Otherwise the gate of the client
    has that capacity, so room for at least one worker, and the first
    message given to the new client is always dispatched: [Notify] returns
    [(1, nil)], takes a slot and starts the worker. *)
Theorem create_capacity_at_least_one
    (url : string) (params : option ptrClientParams) (transport : RoundTripper)
    (Getrlimit : option Z) (st : store) :
  (forall p : ptrClientParams, is_uint64 (MaxConcurrentWorkers (st p))) ->
  (forall Cur : Z, Getrlimit = Some Cur -> is_uint64 Cur) ->
  let r := create url params transport Getrlimit st in
  let p := match params with Some p => p | None => DefaultParams end in
  let size := MaxConcurrentWorkers (snd r p) in
  1 <= size
  /\ (2 ^ 63 <= size -> fst r = None)
  /\ (size < 2 ^ 63 ->
      exists c : Client,
        fst r = Some c
        /\ capacity c = size
        /\ forall message : bytes,
            let r' := Notify [] [message] (start c) in
            fst r' = (1, None)
            /\ goroutines (snd r') = [(inBody, message)]
            /\ chan_len (workersLimiter (cl (snd r'))) = 1
            /\ workers (cl (snd r')) = 1).
Proof.
  intros Hst Hcur r p size.
  pose proof (create_written_positive url params transport Getrlimit st
                Hst Hcur) as Hpos.
  cbv zeta in Hpos. fold r p size in Hpos.
  destruct (create_client url params transport Getrlimit st)
    as [_ [Hsome Hnone]].
  fold r p size in Hsome, Hnone.
  split; [exact Hpos |]. split; [exact Hnone |].
  intros Hfit. destruct (Hsome Hfit) as [c [Hc Hcap]].
  exists c. split; [exact Hc |]. split; [exact Hcap |].
  intros message.
  destruct (create_fresh url params transport Getrlimit st c Hc)
    as [Hlen [Hwg [Hctx _]]].
  unfold Notify. cbn [start cl]. rewrite Hctx.
  cbn [Notify_dispatch hd interfere fold_left].
  rewrite try_dispatch_sends. cbn [start cl]. rewrite Hlen.
  unfold capacity in Hcap.
  destruct (Z.ltb_spec 0 (chan_cap (workersLimiter c))) as [_ | Hle]; [| lia].
  cbn. rewrite Hlen, Hwg. repeat split.
Qed.

Lemma create_capacity_at_least_one_witness :
  let st := initial_store (fun _ => mkClientParams 0 0 0) in
  (forall p : ptrClientParams, is_uint64 (MaxConcurrentWorkers (st p)))
  /\ (forall Cur : Z, Some 0 = Some Cur -> is_uint64 Cur)
  /\ 1 <= written (create "http://localhost:8080/notify" None
                     http_DefaultTransport (Some 0) st)
  /\ made_capacity (create "http://localhost:8080/notify" None
                      http_DefaultTransport (Some 0) st) = Some 1.
Proof.
  intros st.
  assert (Hst : forall p : ptrClientParams,
             is_uint64 (MaxConcurrentWorkers (st p))).
  { intros [| a]; unfold is_uint64; cbn; lia. }
  assert (Hcur : forall Cur : Z, Some 0 = Some Cur -> is_uint64 Cur).
  { intros Cur H. injection H as <-. unfold is_uint64. lia. }
  split; [exact Hst |]. split; [exact Hcur |].
  split; [| reflexivity].
  exact (proj1 (create_capacity_at_least_one _ None http_DefaultTransport
                  (Some 0) st Hst Hcur)).
Defined.

(** X3: with parameters given by the caller, [create] consults neither the
    transport nor the soft limit on open files: the size of the gate is the
    caller's [MaxConcurrentWorkers], so it may exceed both; only a value of
    zero is replaced by 1, and that 1 is written into the caller's own
    struct.  A value that does not fit [int] makes [make] panic, so there is
    a client exactly when the value is below [2^63].  No other struct of the
    memory changes, and with a non-zero value the memory is left as it
    was. *)
Theorem create_explicit_params_not_clamped
    (url : string) (p : ptrClientParams) (transport : RoundTripper)
    (Getrlimit : option Z) (st : store) :
  let M := MaxConcurrentWorkers (st p) in
  let r := create url (Some p) transport Getrlimit st in
  let size := if M =? 0 then 1 else M in
  made_capacity r = (if size <? 2 ^ 63 then Some size else None)
  /\ (fst r = None <-> 2 ^ 63 <= M)
  /\ (forall c : Client, fst r = Some c -> capacity c = size)
  /\ (forall (transport' : RoundTripper) (Getrlimit' : option Z),
         made_capacity (create url (Some p) transport' Getrlimit' st)
         = made_capacity r)
  /\ MaxConcurrentWorkers (snd r p) = size
  /\ MaxRequestRate (snd r p) = MaxRequestRate (st p)
  /\ MaxRequestsPerRate (snd r p) = MaxRequestsPerRate (st p)
  /\ (forall q : ptrClientParams, q <> p -> snd r q = st q)
  /\ (M <> 0 -> forall q : ptrClientParams, snd r q = st q)
  /\ (let st0 := initial_store (fun _ => mkClientParams 5000 Second 10) in
      made_capacity (create url (Some (callerParams 0))
                       (ptrTransport (mkTransport 8 8 8)) (Some 1024) st0)
      = Some 5000)
  /\ (let st0 := initial_store (fun _ => mkClientParams (2 ^ 63) Second 10) in
      fst (create url (Some (callerParams 0))
             (ptrTransport (mkTransport 8 8 8)) (Some 1024) st0)
      = None).
Proof.
  intros M r size.
  destruct (create_explicit url p transport Getrlimit st) as [Hw Hst].
  fold M r in Hw, Hst. fold size in Hw.
  pose proof (made_capacity_create url (Some p) transport Getrlimit st) as Hm.
  cbv beta zeta iota in Hm. fold r in Hm. rewrite Hw in Hm.
  pose proof (create_client url (Some p) transport Getrlimit st) as Hcl.
  cbv beta zeta iota in Hcl. fold r in Hcl. rewrite Hw in Hcl.
  destruct Hcl as [Hc [Hsome Hnone]].
  assert (Hpp : ptrClientParams_eqb p p = true).
  { destruct p; simpl; auto. apply Nat.eqb_refl. }
  split.
  { rewrite Hm. unfold made_of, make_chan.
    destruct (size <? 2 ^ 63); reflexivity. }
  split.
  { split.
    - intros Hn.
      destruct (Z.ltb_spec size (2 ^ 63)) as [Hlt | Hge].
      + destruct (Hsome Hlt) as [c [Hc' _]]. congruence.
      + unfold size in Hge. destruct (Z.eqb_spec M 0); lia.
    - intros Hge. apply Hnone. unfold size.
      destruct (Z.eqb_spec M 0); lia. }
  split.
  { intros c Hc'. now apply Hc. }
  split.
  { intros transport' Getrlimit'.
    pose proof (made_capacity_create url (Some p) transport' Getrlimit' st)
      as Hm'.
    cbv beta zeta iota in Hm'.
    destruct (create_explicit url p transport' Getrlimit' st) as [Hw' _].
    cbv beta zeta iota in Hw'. rewrite Hw' in Hm'. fold M size in Hm'.
    now rewrite Hm', Hm. }
  split; [exact Hw |].
  split.
  { rewrite Hst. unfold assign_MaxConcurrentWorkers.
    destruct (M =? 0); [now rewrite Hpp | reflexivity]. }
  split.
  { rewrite Hst. unfold assign_MaxConcurrentWorkers.
    destruct (M =? 0); [now rewrite Hpp | reflexivity]. }
  split.
  { intros q Hne. rewrite Hst. unfold assign_MaxConcurrentWorkers.
    rewrite (ptrClientParams_eqb_neq p q Hne). now destruct (M =? 0). }
  split.
  { intros Hnz q. rewrite Hst.
    destruct (Z.eqb_spec M 0); [contradiction | reflexivity]. }
  split; reflexivity.
Qed.

(** The struct behind [DefaultParams] after a client was made with nil
    parameters: its limit is not zero, and it did not grow. *)
Lemma create_nil_ratchet st how :
  let r := create_nil st how in
  written r <> 0
  /\ (MaxConcurrentWorkers (st DefaultParams) <> 0 ->
      written r <= MaxConcurrentWorkers (st DefaultParams)).
Proof.
  intros r. unfold r, create_nil.
  rewrite create_nil_written.
  destruct (calculateOptimalWorkersLimit_cases st (snd how) (fst how))
    as [H | H]; cbn zeta in H;
    destruct (Z.eqb_spec (calculateOptimalWorkersLimit st (snd how) (fst how)) 0);
    destruct (snd how) as [Cur |]; split; lia.
Qed.

Lemma then_create_nil_ratchet hows :
  forall st,
    MaxConcurrentWorkers (st DefaultParams) <> 0 ->
    MaxConcurrentWorkers (then_create_nil hows st DefaultParams) <> 0
    /\ MaxConcurrentWorkers (then_create_nil hows st DefaultParams)
       <= MaxConcurrentWorkers (st DefaultParams).
Proof.
  induction hows as [| how hows IH]; intros st Hnz; [simpl; lia |].
  change (then_create_nil (how :: hows) st)
    with (then_create_nil hows (snd (create_nil st how))).
  destruct (create_nil_ratchet st how) as [Hc Hle]. cbn zeta in *.
  unfold written in Hc, Hle.
  specialize (Hle Hnz).
  destruct (IH (snd (create_nil st how))) as [H1 H2]; [lia |].
  lia.
Qed.

(** X4: the capacity given to clients made with nil parameters only goes
    down: after a first such construction, and any number of others made the
    same way in between, a later one never passes a larger size to [make]
    than the first, for any transports and soft limits, because each
    construction leaves its result in [DefaultParams] and the next one
    starts from it.  So when the first construction gives a client, the
    later one gives a client too, and its gate is not larger. *)
Theorem nil_capacity_never_grows
    (st : store) (how : RoundTripper * option Z)
    (hows : list (RoundTripper * option Z)) (how' : RoundTripper * option Z) :
  let first := create_nil st how in
  let later := create_nil (then_create_nil hows (snd first)) how' in
  written later <= written first
  /\ made_capacity first = made_of (written first)
  /\ made_capacity later = made_of (written later)
  /\ (forall c1 : Client,
         fst first = Some c1 ->
         exists c2 : Client,
           fst later = Some c2
           /\ capacity c2 <= capacity c1
           /\ MaxConcurrentWorkers (snd later DefaultParams) <= capacity c1).
Proof.
  intros first later.
  destruct (create_nil_ratchet st how) as [Hc _]. fold first in Hc.
  assert (Hnz : MaxConcurrentWorkers (snd first DefaultParams) <> 0)
    by exact Hc.
  destruct (then_create_nil_ratchet hows (snd first) Hnz) as [H1 H2].
  destruct (create_nil_ratchet (then_create_nil hows (snd first)) how')
    as [_ Hle'].
  fold later in Hle'. specialize (Hle' H1).
  assert (Hle : written later <= written first).
  { unfold written in *. lia. }
  split; [exact Hle |].
  split; [exact (made_capacity_create_nil "" (fst how) (snd how) st) |].
  split.
  { exact (made_capacity_create_nil "" (fst how') (snd how')
             (then_create_nil hows (snd first))). }
  intros c1 Hc1.
  destruct (create_client "" None (fst how) (snd how) st) as [Hcl _].
  destruct (Hcl c1 Hc1) as [Hlt1 Hcap1].
  destruct (create_client "" None (fst how') (snd how')
              (then_create_nil hows (snd first))) as [_ [Hsome _]].
  fold (create_nil st how) in Hlt1, Hcap1. fold first in Hlt1, Hcap1.
  fold (create_nil (then_create_nil hows (snd first)) how') in Hsome.
  fold later in Hsome.
  unfold written in Hle.
  destruct Hsome as [c2 [Hc2 Hcap2]]; [lia |].
  exists c2. split; [exact Hc2 |]. lia.
Qed.

(** ** The error type under [errors.Is] *)


(** ** What the steps leave alone *)

Lemma same_settings_refl c : same_settings c c.
Proof. repeat split. Qed.

Lemma same_settings_trans c1 c2 c3 :
  same_settings c1 c2 -> same_settings c2 c3 -> same_settings c1 c3.
Proof.
  unfold same_settings. intros H12 H23.
  decompose [and] H12. decompose [and] H23.
  repeat split; congruence.
Qed.

Lemma try_dispatch_settings who message s s' :
  try_dispatch who message s = Some s' -> same_settings (cl s) (cl s').
Proof.
  unfold try_dispatch, try_send.
  destruct (chan_len _ <? chan_cap _); [| discriminate].
  intros H. injection H as <-. cbn. repeat split.
Qed.

(** Only [OnError] and [Stop] change the settings. *)
Lemma act_settings a s :
  is_setting a = false -> same_settings (cl s) (cl (act a s)).
Proof.
  apply (act_steps (fun s s' => same_settings (cl s) (cl s'))
           (fun a => is_setting a = false)).
  - intros s0. apply same_settings_refl.
  - intros s1 s2 s3. apply same_settings_trans.
  - intros o message s0.
    destruct (worker_body_state o message s0) as [-> _].
    apply same_settings_refl.
  - intros s0 s' H. apply deferred_receive_spec in H.
    destruct H as [_ ->]. repeat split.
  - intros s0 s' H. apply deferred_Done_spec in H.
    destruct H as [_ ->]. repeat split.
  - intros i s0. apply same_settings_refl.
  - intros i st s0. destruct (set_stage_state i st s0) as [-> _].
    apply same_settings_refl.
  - intros message s0 s' _. apply try_dispatch_settings.
  - intros h s0 H. discriminate.
  - intros s0 H. discriminate.
Qed.

(** Once the context is cancelled, no step of another goroutine changes
    it. *)
Lemma act_keeps_canceled a s err :
  ctx (cl s) = Some err -> ctx (cl (act a s)) = Some err.
Proof.
  destruct (is_setting a) eqn:Ha.
  - intros Hctx. destruct a as [i o | i o | i | i | message | h |];
      try discriminate; cbn [act].
    + destruct h; exact Hctx.
    + simpl. unfold Stop. now rewrite Hctx.
  - intros Hctx. destruct (act_settings a s Ha) as [_ [_ [_ [H _]]]].
    congruence.
Qed.

Lemma interfere_keeps_canceled acts err :
  forall s, ctx (cl s) = Some err -> ctx (cl (interfere acts s)) = Some err.
Proof.
  induction acts as [| a acts IH]; intros s H; [exact H |].
  change (interfere (a :: acts) s) with (interfere acts (act a s)).
  apply IH. now apply act_keeps_canceled.
Qed.

Lemma Notify_canceled_keeps_canceled err e messages :
  forall sched i s,
    ctx (cl s) = Some e ->
    ctx (cl (snd (Notify_canceled err sched messages i s))) = Some e.
Proof.
  induction messages as [| msg rest IH]; intros sched i s H; [exact H |].
  cbn [Notify_canceled]. apply IH. cbn [call_notifyError emit cl].
  now apply interfere_keeps_canceled.
Qed.

Lemma run_keeps_canceled history err :
  forall s, ctx (cl s) = Some err -> ctx (cl (run history s)) = Some err.
Proof.
  induction history as [| c history IH]; intros s H; [exact H |].
  change (run (c :: history) s) with (run history (exec c s)).
  apply IH. destruct c as [sched messages | a]; simpl.
  - unfold Notify. rewrite H. now apply Notify_canceled_keeps_canceled.
  - now apply act_keeps_canceled.
Qed.

(** X6: a stopped client stays stopped.  After [Stop], along every history
    of [Notify] calls, worker returns, [OnError] and further [Stop]s, the
    context keeps its error, and every [Notify] returns the length of its
    batch with that error and starts no worker; calling [Stop] again changes
    nothing. *)
Theorem stopped_client_stays_stopped
    (s : System) (history : list call) (err : error) :
  ctx (cl s) = Some err ->
  let s' := run history s in
  ctx (cl s') = Some err
  /\ (forall (sched : schedule) (messages : list bytes),
         fst (Notify sched messages s')
         = (Z.of_nat (List.length messages), Some err)
         /\ spawns (by_caller (new_events s' (snd (Notify sched messages s'))))
            = [])
  /\ with_cl Stop s' = s'
  /\ Stop (Stop (cl s)) = Stop (cl s).
Proof.
  intros Hctx s'.
  assert (Hs' : ctx (cl s') = Some err) by now apply run_keeps_canceled.
  split; [exact Hs' |].
  split.
  { intros sched messages. unfold Notify. rewrite Hs'.
    destruct (Notify_canceled_spec err messages sched 0 s') as [d [Ht [Hr Hf]]].
    split; [exact Hr |].
    rewrite (new_events_app _ _ _ Ht).
    now destruct (canceled_reports_no_spawn _ _ _ Hf) as [H _]. }
  split.
  { unfold with_cl, Stop. rewrite Hs'. now destruct s'. }
  unfold Stop at 2 3. rewrite Hctx. unfold Stop. now rewrite Hctx.
Qed.

Lemma stopped_client_stays_stopped_witness :
  let messages := map list_byte_of_string ["msg 0"; "msg 1"] in
  let history :=
    [callAct (actExit 0 (mkOracle None (Some context_Canceled) None));
     callNotify [[actOnError (Some (handler 1))]] messages;
     callAct (actBody 0 (mkOracle None None None));
     callAct actStop] in
  exists c : Client,
    fst (New "http://localhost:8080/notify" None (Some 1024)
           (initial_store (fun _ => DefaultParams_init))) = Some c
    /\ (let s := with_cl Stop (snd (Notify [] messages (start c))) in
        ctx (cl s) = Some context_Canceled
        /\ ctx (cl (run history s)) = Some context_Canceled).
Proof.
  intros messages history. eexists. split; [reflexivity |].
  intros s. split; [reflexivity |].
  exact (proj1 (stopped_client_stays_stopped s history context_Canceled
                  eq_refl)).
Defined.

(** ** The count returned by [Notify] *)



(** Three messages on a new client with the default limits, while the first
    worker returns and [Stop] is called during the call. *)
Lemma Notify_within_capacity_witness :
  let messages := map list_byte_of_string ["a"; "b"; "c"] in
  let sched :=
    [[]; [actBody 0 (mkOracle None None None); actReceive 0; actStop]] in
  exists c : Client,
    fst (New "http://localhost:8080/notify" None (Some 1024)
           (initial_store (fun _ => DefaultParams_init))) = Some c
    /\ ctx (cl (start c)) = None
    /\ no_admission sched
    /\ chan_len (workersLimiter (cl (start c)))
       + Z.of_nat (List.length messages)
       <= chan_cap (workersLimiter (cl (start c)))
    /\ fst (Notify sched messages (start c)) = (3, None).
Proof.
  intros messages sched. eexists. split; [reflexivity |].
  match goal with
  | |- ctx (cl ?x) = None /\ _ => set (s := x)
  end.
  assert (Hs : no_admission sched) by (repeat constructor).
  assert (Hfit : chan_len (workersLimiter (cl s))
                 + Z.of_nat (List.length messages)
                 <= chan_cap (workersLimiter (cl s))) by discriminate.
  split; [reflexivity |]. split; [exact Hs |]. split; [exact Hfit |].
  exact (Notify_within_capacity sched messages s eq_refl Hs Hfit).
Defined.

(** ** Draining the gate *)

Lemma drain_gate C os :
  forall s,
    gate_inv C s ->
    List.length os = List.length (goroutines s) ->
    gate_inv C (interfere (map (actExit 0) os) s)
    /\ goroutines (interfere (map (actExit 0) os) s) = [].
Proof.
  induction os as [| o os IH]; intros s Hinv Hlen.
  - simpl in *. split; [exact Hinv |].
    destruct (goroutines s); [reflexivity | discriminate].
  - change (interfere (map (actExit 0) (o :: os)) s)
      with (interfere (map (actExit 0) os) (act (actExit 0 o) s)).
    destruct (goroutines s) as [| [st message] rest] eqn:Hg; [discriminate |].
    assert (Hnth : nth_error (goroutines s) 0 = Some (st, message))
      by now rewrite Hg.
    destruct (resume_returns C o 0%nat st message s Hinv Hnth)
      as [s1 [Hw [Hinv1 [_ [_ Hout]]]]].
    assert (Hact : act (actExit 0 o) s = s1).
    { cbn [act]. now rewrite Hnth, Hw. }
    rewrite Hact. apply IH; [exact Hinv1 |].
    unfold outstanding in Hout. rewrite Hg in Hout. simpl List.length in *. lia.
Qed.



(** ** The handler that receives a failure *)

Lemma worker_body_fails o :
  fails o = true ->
  exists e : NotifyErr,
    Type_ e = TypeSendError
    /\ Err e <> None
    /\ forall message s,
        trace (worker_body o message s)
        = trace s ++ [(aWorker, evReport (notifyError (cl s)) message e)].
Proof.
  unfold fails, worker_body, call_notifyError.
  destruct (NewRequestWithContext o) as [e1 |];
    [| destruct (Wait o) as [e2 |]; [| destruct (Do o) as [e3 |]]];
    intros Hf; try discriminate;
    [exists (mkNotifyErr TypeSendError msgSendErrorRequest (Some e1))
    | exists (mkNotifyErr TypeSendError msgSendErrorRateLimiter (Some e2))
    | exists (mkNotifyErr TypeSendError msgSendErrorClient (Some e3))];
    (split; [reflexivity | split; [discriminate | intros; apply trace_emit]]).
Qed.

(** X10: a failure is reported to the handler that is registered when the
    worker fails, not to the one registered when [Notify] started the
    worker: if [OnError(h)] is called while a worker is in its body and one
    of its library calls then fails, the single call of the handler made by
    that worker goes to [h], with the worker's own message and a [NotifyErr]
    of kind [TypeSendError]; the call is made in the body, before the
    deferred calls. *)
Theorem failure_goes_to_current_handler
    (c : Client) (history : list call) (i : nat) (message : bytes)
    (h : Handler) (o : Oracle) :
  chan_len (workersLimiter c) = 0 ->
  workers c = 0 ->
  0 <= chan_cap (workersLimiter c) ->
  let s := run history (start c) in
  nth_error (goroutines s) i = Some (inBody, message) ->
  fails o = true ->
  let s' := act (actExit i o) (act (actOnError (Some h)) s) in
  exists e : NotifyErr,
    sink_calls s s' = [(h, message, e)]
    /\ sink_calls s (act (actBody i o) (act (actOnError (Some h)) s))
       = [(h, message, e)]
    /\ Type_ e = TypeSendError
    /\ Unwrap e <> None.
Proof.
  intros Hlen Hwg Hcap s Hnth Hf s'.
  assert (Hinv : gate_inv (chan_cap (workersLimiter c)) s).
  { apply run_inv. now apply start_inv. }
  set (s1 := act (actOnError (Some h)) s) in *.
  assert (Hinv1 : gate_inv (chan_cap (workersLimiter c)) s1)
    by now apply act_inv.
  assert (Hnth1 : nth_error (goroutines s1) i = Some (inBody, message))
    by exact Hnth.
  destruct (resume_returns _ o i inBody message s1 Hinv1 Hnth1)
    as [s2 [Hw _]].
  cbn [resume] in Hw.
  assert (Hs' : s' = s2).
  { unfold s'. cbn [act]. rewrite Hnth1. cbn [resume]. now rewrite Hw. }
  destruct (worker_body_fails o Hf) as [e [Hty [Herr Hb]]].
  apply worker_trace in Hw. rewrite Hb in Hw. rewrite <- app_assoc in Hw.
  exists e. split; [| split; [| split; [exact Hty | exact Herr]]].
  - rewrite Hs'. unfold sink_calls.
    assert (Ht : trace s2
                 = trace s ++ [(aWorker, evReport h message e);
                               (aWorker, evRelease); (aWorker, evDone)]).
    { exact Hw. }
    now rewrite (new_events_app _ _ _ Ht).
  - unfold sink_calls.
    assert (Ht : trace (act (actBody i o) s1)
                 = trace s ++ [(aWorker, evReport h message e)]).
    { cbn [act]. rewrite Hnth1.
      destruct (set_stage_state i atReceive (worker_body o message s1))
        as [_ ->].
      now rewrite Hb. }
    now rewrite (new_events_app _ _ _ Ht).
Qed.

Lemma failure_goes_to_current_handler_witness :
  let message := list_byte_of_string "msg 0" in
  let history := [callNotify [] [message]] in
  let o := mkOracle None None (Some (errors_New 4 "connection refused")) in
  exists c : Client,
    fst (New "http://localhost:8080/notify" None (Some 1024)
           (initial_store (fun _ => DefaultParams_init))) = Some c
    /\ (let s := run history (start c) in
        chan_len (workersLimiter c) = 0
        /\ workers c = 0
        /\ 0 <= chan_cap (workersLimiter c)
        /\ nth_error (goroutines s) 0 = Some (inBody, message)
        /\ fails o = true
        /\ exists e : NotifyErr,
             sink_calls s
               (act (actExit 0 o) (act (actOnError (Some (handler 7))) s))
             = [(handler 7, message, e)]
             /\ sink_calls s
                  (act (actBody 0 o) (act (actOnError (Some (handler 7))) s))
                = [(handler 7, message, e)]
             /\ Type_ e = TypeSendError
             /\ Unwrap e <> None).
Proof.
  intros message history o. eexists. split; [reflexivity |].
  match goal with
  | |- let s := run history (start ?x) in _ => set (c := x)
  end.
  intros s.
  assert (Hcap : 0 <= chan_cap (workersLimiter c)) by discriminate.
  split; [reflexivity |]. split; [reflexivity |]. split; [exact Hcap |].
  split; [reflexivity |]. split; [reflexivity |].
  exact (failure_goes_to_current_handler c history 0%nat message (handler 7) o
           eq_refl eq_refl Hcap eq_refl eq_refl).
Defined.

(** ** The accounts of a trace *)

Lemma count_app p a b : count p (a ++ b) = count p a + count p b.
Proof.
  unfold count. rewrite filter_app, length_app. lia.
Qed.

Lemma accounted_refl s : accounted s s.
Proof.
  exists []. rewrite app_nil_r. unfold count. simpl.
  repeat split; try lia. constructor.
Qed.

Lemma accounted_trans s1 s2 s3 :
  accounted s1 s2 -> accounted s2 s3 -> accounted s1 s3.
Proof.
  intros [d1 [T1 [A1 [W1 [L1 F1]]]]] [d2 [T2 [A2 [W2 [L2 F2]]]]].
  exists (d1 ++ d2). rewrite !count_app.
  repeat split; try lia.
  - rewrite T2, T1. now rewrite app_assoc.
  - now apply Forall_app.
Qed.

(** Only the trace and the client matter to the accounts. *)
Lemma accounted_same s s' :
  trace s' = trace s -> cl s' = cl s -> accounted s s'.
Proof.
  intros Ht Hc. exists []. rewrite Ht, Hc, app_nil_r. unfold count. simpl.
  repeat split; try lia. constructor.
Qed.

Lemma worker_body_accounted o message s :
  accounted s (worker_body o message s).
Proof.
  destruct (fails o) eqn:Hf.
  - destruct (worker_body_fails o Hf) as [e [Hty [Herr Ht]]].
    destruct (worker_body_state o message s) as [Hc _].
    eexists. split; [apply Ht |]. rewrite Hc. unfold count. simpl.
    repeat split; try lia.
    constructor; [| constructor]. unfold report_ok. simpl.
    split; [left; now split | exact Herr].
  - assert (Hs : worker_body o message s = s).
    { unfold fails in Hf. unfold worker_body.
      destruct (NewRequestWithContext o); [discriminate |].
      destruct (Wait o); [discriminate |].
      destruct (Do o); [discriminate | reflexivity]. }
    rewrite Hs. apply accounted_refl.
Qed.

Lemma deferred_receive_accounted s s' :
  deferred_receive s = Some s' -> accounted s s'.
Proof.
  intros H. apply deferred_receive_spec in H. destruct H as [_ ->].
  exists [(aWorker, evRelease)]. split; [reflexivity |].
  unfold count. cbn. repeat split; try lia. repeat constructor.
Qed.

Lemma deferred_Done_accounted s s' :
  deferred_Done s = Some s' -> accounted s s'.
Proof.
  intros H. apply deferred_Done_spec in H. destruct H as [_ ->].
  exists [(aWorker, evDone)]. split; [reflexivity |].
  unfold count. cbn. repeat split; try lia. repeat constructor.
Qed.

Lemma try_dispatch_accounted who message s s' :
  try_dispatch who message s = Some s' -> accounted s s'.
Proof.
  intros Hd. pose proof (try_dispatch_trace _ _ _ _ Hd) as Ht.
  revert Hd. unfold try_dispatch, try_send.
  destruct (chan_len _ <? chan_cap _); [| discriminate].
  intros H. injection H as <-.
  eexists. split; [exact Ht |]. unfold count. cbn.
  repeat split; try lia.
  repeat constructor.
Qed.

Lemma act_accounted a s : accounted s (act a s).
Proof.
  apply (act_steps accounted (fun _ => True)); auto.
  - apply accounted_refl.
  - apply accounted_trans.
  - apply worker_body_accounted.
  - apply deferred_receive_accounted.
  - apply deferred_Done_accounted.
  - intros i s0. now apply accounted_same.
  - intros i st s0. destruct (set_stage_state i st s0) as [Hc Ht].
    now apply accounted_same.
  - intros message s0 s' _. apply try_dispatch_accounted.
  - intros h s0 _. exists []. rewrite app_nil_r. unfold count.
    destruct h; simpl; repeat split; try lia; constructor.
  - intros s0 _. exists []. rewrite app_nil_r. unfold count, with_cl, Stop.
    cbn. destruct (ctx (cl s0)); cbn; repeat split; try lia; constructor.
Qed.

Lemma interfere_accounted acts : forall s, accounted s (interfere acts s).
Proof.
  induction acts as [| a acts IH]; intros s; [apply accounted_refl |].
  change (interfere (a :: acts) s) with (interfere acts (act a s)).
  eapply accounted_trans; [apply act_accounted | apply IH].
Qed.

Lemma Notify_accounted sched messages s :
  accounted s (snd (Notify sched messages s)).
Proof.
  unfold Notify. destruct (ctx (cl s)) as [err |].
  - generalize 0. revert sched s.
    induction messages as [| msg rest IH]; intros sched s i;
      [apply accounted_refl |].
    cbn [Notify_canceled].
    eapply accounted_trans; [apply (interfere_accounted (hd [] sched)) |].
    eapply accounted_trans; [| apply IH].
    eexists. split; [apply trace_emit |]. unfold count. cbn.
    repeat split; try lia.
    constructor; [| constructor]. unfold report_ok. simpl.
    split; [right; now split | discriminate].
  - generalize 0. revert sched s.
    induction messages as [| msg rest IH]; intros sched s i;
      [apply accounted_refl |].
    cbn [Notify_dispatch].
    destruct (try_dispatch theCaller msg _) as [s' |] eqn:Hd.
    + eapply accounted_trans; [apply (interfere_accounted (hd [] sched)) |].
      eapply accounted_trans; [| apply IH].
      now apply try_dispatch_accounted in Hd.
    + apply interfere_accounted.
Qed.

Lemma run_accounted history : forall s, accounted s (run history s).
Proof.
  induction history as [| c history IH]; intros s; [apply accounted_refl |].
  change (run (c :: history) s) with (run history (exec c s)).
  eapply accounted_trans; [| apply IH].
  destruct c as [sched messages | a]; simpl.
  - apply Notify_accounted.
  - apply act_accounted.
Qed.



Lemma reports_of_ok_trace (t : list (actor * event)) :
  Forall report_ok t ->
  Forall (fun r : Handler * bytes * NotifyErr =>
            (Type_ (snd r) = TypeSendError
             \/ Type_ (snd r) = TypeContextCanceled)
            /\ Type_ (snd r) <> TypeWorkersLimitExceeded
            /\ Unwrap (snd r) <> None)
    (reports (map snd t)).
Proof.
  induction 1 as [| [who ev] t Hok _ IH]; [constructor |].
  destruct ev as [| m | h m e | |]; simpl; auto.
  constructor; [| exact IH].
  unfold report_ok in Hok. simpl in *.
  destruct Hok as [[[_ Hty] | [_ Hty]] Herr]; rewrite Hty;
    (split; [auto | split; [discriminate | exact Herr]]).
Qed.

(** X12: the handler only ever receives two kinds of error.  Along every
    history of a client, each call of the handler carries a [NotifyErr] of
    kind [TypeSendError] or [TypeContextCanceled] wrapping a non-nil cause;
    [TypeWorkersLimitExceeded] is never reported to the handler, it only
    comes back as the error of [Notify]. *)
Theorem handler_never_sees_limit_exceeded
    (c : Client) (history : list call) :
  Forall (fun r : Handler * bytes * NotifyErr =>
            (Type_ (snd r) = TypeSendError
             \/ Type_ (snd r) = TypeContextCanceled)
            /\ Type_ (snd r) <> TypeWorkersLimitExceeded
            /\ Unwrap (snd r) <> None)
    (reports (map snd (trace (run history (start c))))).
Proof.
  apply reports_of_ok_trace.
  destruct (run_accounted history (start c)) as [d [Ht [_ [_ [_ Hok]]]]].
  rewrite Ht. exact Hok.
Qed.

(** ** The loop of [main] over standard input *)

Lemma eqb_newline b : Strings.Byte.eqb b newline = true <-> b = newline.
Proof.
  split; [apply Strings.Byte.byte_dec_bl | apply Strings.Byte.byte_dec_lb].
Qed.




(** Every input is a sequence of lines that end in a newline, followed by a
    last piece without newline (empty when the input ends in a newline). *)
Lemma stdin_is_lines_then (stdin : bytes) :
  exists (lines : list bytes) (last : bytes),
    stdin = lines_then lines last
    /\ Forall no_newline lines
    /\ no_newline last.
Proof.
  induction stdin as [| b stdin [lines [last [Hs [Hl Hn]]]]].
  - exists [], []. repeat split; [constructor | intros []].
  - destruct (Strings.Byte.eqb b newline) eqn:E.
    + apply eqb_newline in E. subst b.
      exists ([] :: lines), last. repeat split.
      * unfold lines_then in *. simpl. now rewrite Hs.
      * constructor; [intros [] | exact Hl].
      * exact Hn.
    + assert (Hb : b <> newline).
      { intros ->. now rewrite (proj2 (eqb_newline newline) eq_refl) in E. }
      destruct lines as [| l lines].
      * exists [], (b :: last). unfold lines_then in *. simpl in *.
        repeat split; [now rewrite Hs | constructor |].
        intros [H | H]; [congruence | now apply Hn].
      * exists ((b :: l) :: lines), last. unfold lines_then in *. simpl in *.
        repeat split; [now rewrite Hs | | exact Hn].
        inversion Hl as [| ? ? Hl1 Hl2]; subst.
        constructor; [| exact Hl2].
        intros [H | H]; [congruence | now apply Hl1].
Qed.



(** The input [a\nb\r\n\nc]: [a], [b\r] and the empty line are sent, [c] is
    not. *)
Example readLoop_drops_unterminated_line :
  let stdin :=
    list_byte_of_string "a" ++ [newline]
    ++ list_byte_of_string "b" ++ [Init.Byte.x0d; newline]
    ++ [newline] ++ list_byte_of_string "c" in
  option_map
    (fun c =>
       option_map (fun r => map (fun c => (fst c, fst (snd c))) (fst r))
         (readLoop (S (List.length stdin)) [] [] stdin (start c)))
    (fst (New "http://localhost:8080/notify" None (Some 1024)
            (initial_store (fun _ => DefaultParams_init))))
  = Some (Some [(list_byte_of_string "a", 1);
                (list_byte_of_string "b" ++ [Init.Byte.x0d], 1);
                ([], 1)]).
Proof. vm_compute. reflexivity. Qed.

(** ** [New] with nil parameters *)

(** X14: [New(url, nil)] uses [http.DefaultTransport], whose only hint is
    [MaxIdleConns: 100]; as long as [DefaultParams.MaxConcurrentWorkers] is
    at most 100 (its initial value, and it only goes down) that hint never
    applies, and the capacity is the smaller of that value and the soft
    limit on open files, or just that value when the soft limit cannot be
    read, with zero replaced by 1. *)
Theorem New_nil_capacity (url : string) (Getrlimit : option Z) (st : store) :
  MaxConcurrentWorkers (st DefaultParams) <= 100 ->
  let D := MaxConcurrentWorkers (st DefaultParams) in
  let L := match Getrlimit with
           | Some Cur => Z.min D Cur
           | None => D
           end in
  made_capacity (New url None Getrlimit st) = Some (if L =? 0 then 1 else L).
Proof.
  intros HD D L. unfold New.
  rewrite made_capacity_create_nil, create_nil_written.
  assert (Hcalc : calculateOptimalWorkersLimit st Getrlimit http_DefaultTransport
                  = L).
  { unfold calculateOptimalWorkersLimit, http_DefaultTransport. fold D.
    assert (HL : match Getrlimit with
                 | Some Cur => if D >? Cur then Cur else D
                 | None => D
                 end = L).
    { unfold L. destruct Getrlimit as [Cur |]; [| reflexivity].
      destruct (Z.gtb_spec D Cur); lia. }
    rewrite HL. cbn [MaxConnsPerHost MaxIdleConnsPerHost MaxIdleConns].
    change (0 >? 0) with false. cbn [andb].
    change (uint64 100) with 100.
    assert (HL100 : L <= 100).
    { unfold L. fold D in HD. destruct Getrlimit; lia. }
    destruct (Z.ltb_spec 100 L); [lia |]. now rewrite andb_false_r. }
  rewrite Hcalc. apply made_of_small.
  assert (HL100 : L <= 100).
  { unfold L. fold D in HD. destruct Getrlimit; lia. }
  destruct (L =? 0); lia.
Qed.

Lemma New_nil_capacity_witness :
  let st := initial_store (fun _ => DefaultParams_init) in
  MaxConcurrentWorkers (st DefaultParams) <= 100
  /\ made_capacity (New "http://localhost:8080/notify" None (Some 64) st)
     = Some 64.
Proof.
  intros st.
  assert (H : MaxConcurrentWorkers (st DefaultParams) <= 100) by discriminate.
  split; [exact H |].
  exact (New_nil_capacity "http://localhost:8080/notify" (Some 64) st H).
Defined.

(** ** [main] as a whole *)

Lemma readLoop_inv C fuel :
  forall interrupt sched stdin s calls s',
    gate_inv C s ->
    readLoop fuel interrupt sched stdin s = Some (calls, s') ->
    gate_inv C s'.
Proof.
  induction fuel as [| fuel IH]; intros interrupt sched stdin s calls s' Hinv;
    [discriminate |].
  cbn [readLoop]. destruct (hd false interrupt).
  { intros H. injection H as _ <-. exact Hinv. }
  destruct (ReadString stdin) as [[nextLine unread] eof].
  destruct eof.
  { intros H. injection H as _ <-. exact Hinv. }
  pose proof (Notify_inv C [hd [] sched] [TrimSuffix nextLine] s Hinv) as Hn.
  destruct (Notify [hd [] sched] [TrimSuffix nextLine] s) as [result s1].
  destruct (readLoop fuel (tl interrupt) (tl sched) unread s1)
    as [[calls1 s2] |] eqn:Hr; [| discriminate].
  intros H. injection H as _ <-. eapply IH; eauto.
Qed.

Lemma ReadString_consumes (stdin : bytes) :
  forall line unread,
    ReadString stdin = (line, unread, false) ->
    (List.length unread < List.length stdin)%nat.
Proof.
  induction stdin as [| b stdin IH]; intros line unread; cbn [ReadString].
  - discriminate.
  - destruct (Strings.Byte.eqb b newline).
    + intros H. injection H as _ <-. simpl. lia.
    + destruct (ReadString stdin) as [[line1 unread1] eof1].
      intros H. injection H as _ <- ->.
      specialize (IH line1 unread1 eq_refl). simpl. lia.
Qed.

Lemma readLoop_returns fuel :
  forall interrupt sched stdin s,
    (List.length stdin < fuel)%nat ->
    exists calls s', readLoop fuel interrupt sched stdin s = Some (calls, s').
Proof.
  induction fuel as [| fuel IH]; intros interrupt sched stdin s Hfuel; [lia |].
  cbn [readLoop]. destruct (hd false interrupt); [now exists [], s |].
  destruct (ReadString stdin) as [[nextLine unread] eof] eqn:Hread.
  destruct eof; [now exists [], s |].
  apply ReadString_consumes in Hread.
  destruct (Notify [hd [] sched] [TrimSuffix nextLine] s) as [result s1].
  destruct (IH (tl interrupt) (tl sched) unread s1) as [calls [s' Hr]]; [lia |].
  rewrite Hr. now exists ((TrimSuffix nextLine, result) :: calls), s'.
Qed.

(** X15: [main] gets its client and reaches [notify.Wait()] for every
    input, and does not hang there on a leaked worker: when the loop has
    ended, the workers that still hold a slot are at most as many as the gate
    has, the counter of the wait group is the number of workers that have
    not returned, and as soon as each of them has returned, with whatever
    outcome, the gate is empty, the counter is zero and [notify.Wait()]
    returns.  This holds whatever the input, the signals and the timing
    are. *)
Theorem main_Wait_returns_once_workers_return
    (urlFlag : string) (Getrlimit : option Z)
    (interrupt : list bool) (sched : schedule) (stdin : bytes) :
  (forall Cur : Z, Getrlimit = Some Cur -> is_uint64 Cur) ->
  exists (notify : Client) (calls : list (bytes * (Z * option error)))
         (s' : System),
    fst (New urlFlag None Getrlimit
           (initial_store (fun _ => DefaultParams_init))) = Some notify
    /\ main_until_Wait urlFlag Getrlimit (S (List.length stdin)) interrupt
         sched stdin = Some (calls, s')
    /\ holders s' <= capacity notify
    /\ chan_len (workersLimiter (cl s')) = holders s'
    /\ workers (cl s') = outstanding s'
    /\ forall os : list Oracle,
         List.length os = List.length (goroutines s') ->
         let drained := interfere (map (actExit 0) os) s' in
         goroutines drained = []
         /\ chan_len (workersLimiter (cl drained)) = 0
         /\ workers (cl drained) = 0
         /\ Client_Wait drained = Some drained.
Proof.
  intros Hcur. unfold main_until_Wait.
  set (st := initial_store (fun _ => DefaultParams_init)).
  pose proof (create_nil_written urlFlag http_DefaultTransport Getrlimit st)
    as Hw.
  cbv zeta in Hw.
  assert (Hsize : 1 <= written (create urlFlag None http_DefaultTransport
                                  Getrlimit st) <= 100).
  { rewrite Hw.
    destruct (calculateOptimalWorkersLimit_cases st Getrlimit
                http_DefaultTransport) as [H | H]; cbn zeta in H;
      change (MaxConcurrentWorkers (st DefaultParams)) with 100 in H.
    - rewrite H. destruct Getrlimit as [Cur |].
      + pose proof (Hcur Cur eq_refl) as [HC _].
        destruct (Z.eqb_spec (Z.min 100 Cur) 0); lia.
      + simpl. lia.
    - destruct (Z.eqb_spec
                  (calculateOptimalWorkersLimit st Getrlimit
                     http_DefaultTransport) 0);
        destruct Getrlimit as [Cur |]; lia. }
  destruct (create_client urlFlag None http_DefaultTransport Getrlimit st)
    as [_ [Hsome _]].
  destruct Hsome as [notify [HNew Hcapw]]; [unfold written in Hsize; lia |].
  assert (Hcap : 1 <= capacity notify).
  { rewrite Hcapw. unfold written in Hsize. lia. }
  destruct (create_fresh urlFlag None http_DefaultTransport Getrlimit st
              notify HNew) as [Hlen [Hwg _]].
  unfold New. rewrite HNew.
  set (C := capacity notify) in *.
  assert (Hinv0 : gate_inv C (start (OnError (Some log_failure) notify))).
  { unfold gate_inv, outstanding, holders, start. simpl.
    rewrite Hlen, Hwg. unfold C, capacity in *. repeat split; lia. }
  destruct (readLoop_returns (S (List.length stdin)) interrupt sched stdin
              (start (OnError (Some log_failure) notify)))
    as [calls [s' Hmain]]; [lia |].
  exists notify, calls, s'. split; [reflexivity |]. split; [exact Hmain |].
  pose proof (readLoop_inv C _ _ _ _ _ _ _ Hinv0 Hmain) as Hinv.
  destruct Hinv as [Hc [Hl [Hwk Hle]]].
  split; [exact Hle |]. split; [exact Hl |]. split; [exact Hwk |].
  intros os Hos. cbv zeta.
  set (drained := interfere (map (actExit 0) os) s').
  destruct (drain_gate C os s' (conj Hc (conj Hl (conj Hwk Hle))) Hos)
    as [Hinv' Hnil].
  fold drained in Hinv', Hnil.
  destruct Hinv' as [_ [Hl' [Hw' _]]].
  unfold outstanding, holders in Hl', Hw'. rewrite Hnil in Hl', Hw'.
  simpl in Hl', Hw'.
  split; [exact Hnil |]. split; [exact Hl' |]. split; [exact Hw' |].
  unfold Client_Wait. now rewrite Hw'.
Qed.

Lemma main_Wait_returns_once_workers_return_witness :
  let stdin := list_byte_of_string "first" ++ [newline]
               ++ list_byte_of_string "second" ++ [newline] in
  let sched := [[]; [actBody 0 (mkOracle None None None); actReceive 0]] in
  (forall Cur : Z, Some 1024 = Some Cur -> is_uint64 Cur)
  /\ exists notify calls s',
       fst (New "http://localhost:8080/notify" None (Some 1024)
              (initial_store (fun _ => DefaultParams_init))) = Some notify
       /\ main_until_Wait "http://localhost:8080/notify" (Some 1024)
            (S (List.length stdin)) [] sched stdin = Some (calls, s')
       /\ holders s' <= capacity notify.
Proof.
  intros stdin sched.
  assert (Hcur : forall Cur : Z, Some 1024 = Some Cur -> is_uint64 Cur).
  { intros Cur H. injection H as <-. unfold is_uint64. lia. }
  split; [exact Hcur |].
  destruct (main_Wait_returns_once_workers_return
              "http://localhost:8080/notify" (Some 1024) [] sched stdin
              Hcur) as [notify [calls [s' [HNew [Hmain [Hle _]]]]]].
  now exists notify, calls, s'.
Defined.

(** ** What [Notify] and the workers never touch *)

Lemma interfere_settings acts :
  forall s,
    Forall (fun a => is_setting a = false) acts ->
    same_settings (cl s) (cl (interfere acts s)).
Proof.
  induction acts as [| a acts IH]; intros s Hq; [apply same_settings_refl |].
  change (interfere (a :: acts) s) with (interfere acts (act a s)).
  inversion Hq as [| ? ? Ha Hrest]; subst.
  apply same_settings_trans with (cl (act a s));
    [now apply act_settings | now apply IH].
Qed.

Lemma quiet_sched_hd_tl sched :
  quiet_sched sched ->
  Forall (fun a => is_setting a = false) (hd [] sched)
  /\ quiet_sched (tl sched).
Proof.
  intros [| acts rest Ha Hrest]; simpl; split; auto; constructor.
Qed.

Lemma Notify_settings sched messages s :
  quiet_sched sched ->
  same_settings (cl s) (cl (snd (Notify sched messages s))).
Proof.
  unfold Notify. destruct (ctx (cl s)) as [err |].
  - generalize 0. revert sched s.
    induction messages as [| msg rest IH]; intros sched s i Hq;
      [apply same_settings_refl |].
    cbn [Notify_canceled].
    destruct (quiet_sched_hd_tl sched Hq) as [Hhd Htl].
    apply same_settings_trans with (cl (interfere (hd [] sched) s));
      [apply (interfere_settings _ s Hhd) |].
    eapply same_settings_trans; [| apply IH; exact Htl].
    apply same_settings_refl.
  - generalize 0. revert sched s.
    induction messages as [| msg rest IH]; intros sched s i Hq;
      [apply same_settings_refl |].
    cbn [Notify_dispatch].
    destruct (quiet_sched_hd_tl sched Hq) as [Hhd Htl].
    destruct (try_dispatch theCaller msg _) as [s' |] eqn:Hd.
    + apply same_settings_trans with (cl (interfere (hd [] sched) s));
        [apply (interfere_settings _ s Hhd) |].
      apply same_settings_trans with (cl s'); [| apply IH; exact Htl].
      now apply try_dispatch_settings in Hd.
    + now apply interfere_settings.
Qed.

(** X16: [Notify] and the workers never change the settings of a client.
    Along every history without a call of [OnError] or [Stop], whatever
    batches are submitted and however the workers end, the URL, the error
    handler, the transport, the context, the capacity of the gate and the
    rate limiter stay as they were: a running client is never cancelled and
    its handler never replaced behind the caller's back. *)
Theorem only_OnError_and_Stop_change_settings
    (s : System) (history : list call) :
  Forall quiet history ->
  same_settings (cl s) (cl (run history s)).
Proof.
  revert s. induction history as [| c history IH]; intros s Hq;
    [apply same_settings_refl |].
  change (run (c :: history) s) with (run history (exec c s)).
  inversion Hq as [| ? ? Hc Hrest]; subst.
  apply same_settings_trans with (cl (exec c s)); [| now apply IH].
  destruct c as [sched messages | a]; simpl in *.
  - now apply Notify_settings.
  - now apply act_settings.
Qed.

Lemma only_OnError_and_Stop_change_settings_witness :
  let messages := map list_byte_of_string ["msg 0"; "msg 1"; "msg 2"] in
  let history :=
    [callNotify [[]; [actExit 0 (mkOracle None None (Some context_Canceled))]]
       messages;
     callAct (actAdmit (list_byte_of_string "other"));
     callAct (actBody 0 (mkOracle None None None));
     callAct (actReceive 0);
     callAct (actDone 0)] in
  exists c : Client,
    fst (create "http://localhost:8080/notify" (Some (callerParams 0))
           http_DefaultTransport (Some 1024)
           (initial_store (fun _ => mkClientParams 2 Second 1))) = Some c
    /\ (let s := start (OnError (Some (handler 3)) c) in
        Forall quiet history
        /\ notifyError (cl (run history s)) = handler 3
        /\ ctx (cl (run history s)) = None).
Proof.
  intros messages history. eexists. split; [reflexivity |].
  intros s.
  assert (Hq : Forall quiet history).
  { repeat constructor. }
  split; [exact Hq |].
  pose proof (only_OnError_and_Stop_change_settings s history Hq)
    as [_ [Hh [_ [Hc _]]]].
  split; [exact Hh | exact Hc].
Defined.
